(** * Audio synthesis in Go: signals, sampling and PCM encoding

    A shallow embedding of [main.go]: the [Signal] type, the generators
    [Constant] and [Sine], the sampler [Sample] and the encoder [EncodePCM],
    followed by the properties of the specification that concern them.

    Conventions of the embedding.
    - Go's [int], [int64] and [time.Duration] are [Z] with the two's
      complement wrap-around of 64 bits written out ([wrap64]).
    - A [float64] is its IEEE-754 binary64 bit pattern, a [Z] in
      [0, 2^64): [math.Float64bits] is then the identity, and NaN payloads
      are kept.  Arithmetic goes through [SpecFloat]: a pattern is decoded
      ([SF]), the operation of the standard library's binary64
      specification is applied, and the result is encoded again ([F64]).
    - A byte is a [Z] in [0, 256).
    - The [for] loop of [Sample] need not terminate: it is run with fuel
      and returns [None] when the fuel is exhausted. *)

From Stdlib Require Import ZArith List Lia Bool.
From Stdlib Require Import Floats.SpecFloat.
Import ListNotations.

Local Open Scope Z_scope.

(** ** Machine integers *)

Module Int64.

Definition modulus : Z := 2 ^ 64.
Definition half_modulus : Z := 2 ^ 63.
Definition min_signed : Z := - 2 ^ 63.
Definition max_signed : Z := 2 ^ 63 - 1.

(** The value an [int64] holds after an operation whose exact result is
    [z]. *)
Definition wrap64 (z : Z) : Z := (z + half_modulus) mod modulus - half_modulus.

Definition in_range (z : Z) : Prop := min_signed <= z <= max_signed.

Definition add (a b : Z) : Z := wrap64 (a + b).

(** Go's [/] and [%] on integers truncate towards zero. *)
Definition div (a b : Z) : Z := wrap64 (Z.quot a b).
Definition rem (a b : Z) : Z := Z.rem a b.

End Int64.

(** ** [float64] as a bit pattern *)

Definition float64 : Type := Z.

Definition is_float64 (f : float64) : Prop := 0 <= f < 2 ^ 64.

Module F64.

Definition prec : Z := 53.
Definition emax : Z := 1024.

Definition sign_bit : Z := 2 ^ 63.
Definition exp_inf : Z := 2047.
Definition mant_mod : Z := 2 ^ 52.

(** The quiet NaN returned by Go's [math.NaN()]. *)
Definition nan_bits : Z := 0x7FF8000000000001.

Definition sign_of (f : float64) : bool := Z.testbit f 63.
Definition exp_of (f : float64) : Z := (f / mant_mod) mod 2048.
Definition mant_of (f : float64) : Z := f mod mant_mod.

(** The IEEE-754 value of a bit pattern. *)
Definition SF (f : float64) : spec_float :=
  let s := sign_of f in
  let e := exp_of f in
  let m := mant_of f in
  if e =? 0 then
    if m =? 0 then S754_zero s else S754_finite s (Z.to_pos m) (-1074)
  else if e =? exp_inf then
    if m =? 0 then S754_infinity s else S754_nan
  else S754_finite s (Z.to_pos (m + mant_mod)) (e - 1075).

Definition with_sign (s : bool) (z : Z) : Z := if s then sign_bit + z else z.

(** The bit pattern of an IEEE-754 value.  [spec_float] has one NaN, with
    neither sign nor payload, and which NaN an operation of the processor
    gives is not modelled: [nan_bits] stands for every NaN that arithmetic
    produces.  What is proved of such a result is that it is a NaN
    ([is_nan]), never its bits. *)
Definition F64 (x : spec_float) : float64 :=
  match x with
  | S754_zero s => with_sign s 0
  | S754_infinity s => with_sign s (exp_inf * mant_mod)
  | S754_nan => nan_bits
  | S754_finite s m e =>
      if Z.pos m <? mant_mod then with_sign s (Z.pos m)
      else with_sign s ((e + 1075) * mant_mod + (Z.pos m - mant_mod))
  end.

Definition add (a b : float64) : float64 := F64 (SFadd prec emax (SF a) (SF b)).
Definition mul (a b : float64) : float64 := F64 (SFmul prec emax (SF a) (SF b)).
Definition div (a b : float64) : float64 := F64 (SFdiv prec emax (SF a) (SF b)).
Definition ltb (a b : float64) : bool := SFltb (SF a) (SF b).
Definition eqb (a b : float64) : bool := SFeqb (SF a) (SF b).

(** Conversion [float64(n)] of an integer: rounding to nearest, ties to
    even. *)
Definition of_int (n : Z) : float64 := F64 (binary_normalize prec emax n 0 false).

(** The integer part of a finite value, rounded towards zero. *)
Definition trunc (x : spec_float) : option Z :=
  match x with
  | S754_zero _ => Some 0
  | S754_finite s m e =>
      let a := match e with
               | Z0 => Z.pos m
               | Z.pos p => Z.pos m * 2 ^ Z.pos p
               | Z.neg p => Z.pos m / 2 ^ Z.pos p
               end in
      Some (if s then - a else a)
  | _ => None
  end.

(** Conversion [int64(f)] of a float: the fraction is discarded.  Go leaves
    the result open when the value does not fit; the model gives what the
    amd64 conversion instruction gives, the smallest [int64]. *)
Definition to_int64 (f : float64) : Z :=
  match trunc (SF f) with
  | Some z => if (Int64.min_signed <=? z) && (z <=? Int64.max_signed) then z
              else Int64.min_signed
  | None => Int64.min_signed
  end.

Definition zero : float64 := 0.
Definition neg_zero : float64 := sign_bit.
Definition inf : float64 := exp_inf * mant_mod.
Definition two : float64 := of_int 2.

Definition is_nan (f : float64) : bool :=
  match SF f with S754_nan => true | _ => false end.
Definition is_inf (f : float64) : bool :=
  match SF f with S754_infinity _ => true | _ => false end.

(** Neither an infinity nor a NaN: the exponent field is not all ones. *)
Definition is_finite (f : float64) : bool := negb (exp_of f =? exp_inf).

End F64.

(** ** The parts of Go's standard library the program calls *)

Module Time.

(** [time.Duration] counts nanoseconds in an [int64]. *)
Definition Duration : Type := Z.

Definition Nanosecond : Duration := 1.
Definition Second : Duration := 1000000000.

(** [Duration.Seconds]: the whole seconds and the remaining nanoseconds are
    converted apart and added. *)
Definition Seconds (d : Duration) : float64 :=
  let sec := Int64.div d Second in
  let nsec := Int64.rem d Second in
  F64.add (F64.of_int sec) (F64.div (F64.of_int nsec) (F64.of_int 1000000000)).

End Time.

Module Math.

(** [math.Pi] rounded to a [float64]. *)
Definition Pi : float64 := 0x400921FB54442D18.

Definition NaN : float64 := F64.nan_bits.

(** [math.Sin].  Its special cases are decided first, as the library
    documents them: [Sin(±0) = ±0], [Sin(±Inf) = NaN], [Sin(NaN) = NaN].
    The argument reduction and the polynomial that follow are not part of
    this program and stay a parameter, [kernel]. *)
Definition Sin (kernel : float64 -> float64) (x : float64) : float64 :=
  if F64.eqb x F64.zero || F64.is_nan x then x
  else if F64.is_inf x then NaN
  else kernel x.

(** [math.Float64bits] and [math.Float64frombits]. *)
Definition Float64bits (f : float64) : Z := f.
Definition Float64frombits (b : Z) : float64 := b.

End Math.

Module Binary.

Definition byte (v : Z) : Z := v mod 256.

(** [binary.BigEndian.PutUint64(b, v)]: the eight bytes of [v] overwrite
    the first eight places of [b], most significant byte first. *)
Definition PutUint64 (b : list Z) (v : Z) : list Z :=
  [ byte (Z.shiftr v 56); byte (Z.shiftr v 48); byte (Z.shiftr v 40);
    byte (Z.shiftr v 32); byte (Z.shiftr v 24); byte (Z.shiftr v 16);
    byte (Z.shiftr v 8); byte v ] ++ skipn 8 b.

(** [binary.BigEndian.Uint64(b)]. *)
Definition Uint64 (b : list Z) : Z :=
  let at_ (i : nat) := nth i b 0 in
  Z.lor (at_ 7%nat)
    (Z.lor (Z.shiftl (at_ 6%nat) 8)
       (Z.lor (Z.shiftl (at_ 5%nat) 16)
          (Z.lor (Z.shiftl (at_ 4%nat) 24)
             (Z.lor (Z.shiftl (at_ 3%nat) 32)
                (Z.lor (Z.shiftl (at_ 2%nat) 40)
                   (Z.lor (Z.shiftl (at_ 1%nat) 48)
                      (Z.shiftl (at_ 0%nat) 56))))))).

End Binary.

(** ** The program *)

(** [type Signal func(x time.Duration) (y float64)] *)
Definition Signal : Type := Time.Duration -> float64.

(** [func Constant(v float64) Signal] *)
Definition Constant (v : float64) : Signal := fun _ => v.

(** [func Sine(freq Signal) Signal]: the product is taken from left to
    right, [((x.Seconds() * 2) * math.Pi) * freq(x)]. *)
Definition Sine (kernel : float64 -> float64) (freq : Signal) : Signal :=
  fun x =>
    Math.Sin kernel
      (F64.mul (F64.mul (F64.mul (Time.Seconds x) F64.two) Math.Pi) (freq x)).

(** The loop of [Sample]: [i] is the cursor, [hi] the bound
    [float64(from+to)], [frames] what has been appended so far. *)
Fixpoint Sample_loop (fuel : nat) (s : Signal) (step hi i : float64)
    (frames : list float64) : option (list float64) :=
  match fuel with
  | O => None
  | S fuel' =>
      if F64.ltb i hi then
        let val := s (F64.to_int64 i) in
        Sample_loop fuel' s step hi (F64.add i step) (frames ++ [val])
      else Some frames
  end.

(** [func Sample(s Signal, rate int, from, to time.Duration) (frames []float64)] *)
Definition Sample (fuel : nat) (s : Signal) (rate : Z) (from to : Time.Duration)
    : option (list float64) :=
  let step := F64.div (F64.of_int Time.Second) (F64.of_int rate) in
  Sample_loop fuel s step (F64.of_int (Int64.add from to)) (F64.of_int from) [].

(** One turn of the loop of [EncodePCM]: [buf] is refilled and appended
    to [b]. *)
Definition EncodePCM_step (st : list Z * list Z) (pulse : float64)
    : list Z * list Z :=
  let '(buf, b) := st in
  let buf' := Binary.PutUint64 buf (Math.Float64bits pulse) in
  (buf', b ++ buf').

(** [func EncodePCM(frames []float64) (b []byte)] *)
Definition EncodePCM (frames : list float64) : list Z :=
  snd (fold_left EncodePCM_step frames (repeat 0 8, [])).

(** [func main()]: five seconds of a 440 Hz sine at 44100 frames per
    second, encoded; the bytes are what is written to the standard
    output. *)
Definition main (fuel : nat) (kernel : float64 -> float64) : option (list Z) :=
  let signal := Sine kernel (Constant (F64.of_int 440)) in
  match Sample fuel signal 44100 0 (5 * Time.Second) with
  | Some frames => Some (EncodePCM frames)
  | None => None
  end.

(** ** Definitions used to state the properties *)

(** [Sample] returns [frames]: the loop ends with some amount of fuel. *)
Definition returns (s : Signal) (rate : Z) (from to : Time.Duration)
    (frames : list float64) : Prop :=
  exists fuel : nat, Sample fuel s rate from to = Some frames.

Definition is_byte (b : Z) : Prop := 0 <= b < 256.

(** The [n] digits of [v] in base 256, most significant first. *)
Fixpoint big_endian (n : nat) (v : Z) : list Z :=
  match n with
  | O => []
  | S n' => big_endian n' (v / 256) ++ [v mod 256]
  end.

(** The inverse of [EncodePCM], which the program does not contain and the
    specification asks to exist: the buffer is cut into groups of eight
    bytes, and each group is read as a big-endian bit pattern. *)
Fixpoint DecodePCM (b : list Z) : list float64 :=
  match b with
  | b0 :: b1 :: b2 :: b3 :: b4 :: b5 :: b6 :: b7 :: rest =>
      Math.Float64frombits (Binary.Uint64 [b0; b1; b2; b3; b4; b5; b6; b7])
      :: DecodePCM rest
  | _ => []
  end.

(** [2 * math.Pi], the constant the specification writes [2π]. *)
Definition two_pi : float64 := F64.mul F64.two Math.Pi.

(** The mantissa of [math.Pi]: [math.Pi = pi_mant * 2^(-51)]. *)
Definition pi_mant : positive := 7074237752028440.

(** What a bit pattern can decode to. *)
Inductive decoded : spec_float -> Prop :=
  | dec_zero s : decoded (S754_zero s)
  | dec_inf s : decoded (S754_infinity s)
  | dec_nan : decoded S754_nan
  | dec_subnormal s m : Z.pos m < 2 ^ 52 -> decoded (S754_finite s m (-1074))
  | dec_normal s m e :
      2 ^ 52 <= Z.pos m < 2 ^ 53 -> -1074 <= e <= 971 ->
      decoded (S754_finite s m e).

(** The value [m * 2^e] is the value of the float [(M, E)]. *)
Definition same_value (m : positive) (e : Z) (M : positive) (E : Z) : Prop :=
  (e <= E /\ Z.pos m = Z.pos M * 2 ^ (E - e)) \/
  (E <= e /\ Z.pos M = Z.pos m * 2 ^ (e - E)).

(** The number of binary digits of [n > 0]. *)
Definition digits (n : Z) : Z := Z.log2 n + 1.

Definition int_mant (n : Z) : positive := Z.to_pos (n * 2 ^ (53 - digits n)).

(** The float that holds the integer [n], for [0 <= n < 2^53]. *)
Definition sf_int (n : Z) : spec_float :=
  if n =? 0 then S754_zero false
  else S754_finite false (int_mant n) (digits n - 53).

(** The frames the loop appends when the arithmetic is exact: the signal
    at [c], [c + q], [c + 2q], ... *)
Definition samples (s : Signal) (c q : Z) (n : nat) : list float64 :=
  map (fun k => s (c + Z.of_nat k * q)) (seq 0 n).

(** The number of offsets [c + k * q] below [hi]. *)
Definition steps (c hi q : Z) : nat := Z.to_nat ((hi - c + q - 1) / q).

(** The step [float64(time.Second) / float64(rate)] is the whole number
    of nanoseconds [time.Second / rate]. *)
Definition step_is_exact (rate : Z) : bool :=
  F64.div (F64.of_int Time.Second) (F64.of_int rate)
  =? F64.of_int (Time.Second / rate).

(** A normal float, a zero, an infinity or a NaN. *)
Definition sf_valid (x : spec_float) : bool :=
  match x with
  | S754_finite _ m e =>
      (Z.pos (digits2_pos m) =? 53) && (-1074 <=? e) && (e <=? 971)
  | _ => true
  end.

(** The loop of [Sample] on IEEE-754 values, counting the frames instead
    of collecting them: the cursor and the count while the loop runs, the
    count when it has ended, or [Invalid] after a cursor that is not
    [sf_valid]. *)
Inductive count_state : Type :=
  | Running (i : spec_float) (n : Z)
  | Done (n : Z)
  | Invalid.

Definition count_step (step hi : spec_float) (st : count_state) : count_state :=
  match st with
  | Running i n =>
      if SFltb i hi then
        let i' := SFadd F64.prec F64.emax i step in
        if sf_valid i' then Running i' (n + 1) else Invalid
      else Done n
  | _ => st
  end.

(** [2^p] turns of the loop. *)
Fixpoint count_run (p : nat) (step hi : spec_float) (st : count_state) : count_state :=
  match p with
  | O => count_step step hi st
  | S p' => count_run p' step hi (count_run p' step hi st)
  end.

(** A float of sign [s] that is not a NaN. *)
Inductive signed (s : bool) : spec_float -> Prop :=
  | signed_zero : signed s (S754_zero s)
  | signed_finite m e : signed s (S754_finite s m e)
  | signed_inf : signed s (S754_infinity s).

(** The exponent of a finite float is at most [b]; an infinity or a NaN
    has no bound. *)
Definition exp_le (b : Z) (x : spec_float) : Prop :=
  match x with
  | S754_zero _ => True
  | S754_finite _ _ e => e <= b
  | _ => False
  end.

(** A zero of either sign, or a negative float. *)
Definition nonpos (x : spec_float) : Prop :=
  match x with
  | S754_zero _ => True
  | S754_finite s _ _ => s = true
  | S754_infinity s => s = true
  | S754_nan => False
  end.

(** A zero of either sign, or a positive float. *)
Definition nonneg (x : spec_float) : Prop :=
  match x with
  | S754_zero _ => True
  | S754_finite s _ _ => s = false
  | S754_infinity s => s = false
  | S754_nan => False
  end.

Definition nonzero (x : spec_float) : Prop :=
  match x with S754_zero _ => False | _ => True end.

(** The offsets at which the loop of [Sample] evaluates its signal. *)
Fixpoint Sample_offsets_loop (fuel : nat) (step hi i : float64)
    (offsets : list Time.Duration) : option (list Time.Duration) :=
  match fuel with
  | O => None
  | S fuel' =>
      if F64.ltb i hi then
        Sample_offsets_loop fuel' step hi (F64.add i step)
          (offsets ++ [F64.to_int64 i])
      else Some offsets
  end.

Definition Sample_offsets (fuel : nat) (rate : Z) (from to : Time.Duration)
    : option (list Time.Duration) :=
  let step := F64.div (F64.of_int Time.Second) (F64.of_int rate) in
  Sample_offsets_loop fuel step (F64.of_int (Int64.add from to)) (F64.of_int from) [].

(** ** Signals that could keep a state

    A [Signal] of the program is a Go function value, and a call of one
    could read and write variables of its own.  A [Procedure] is a signal
    over such a state [W]: a call takes the state it finds and gives the
    state it leaves. *)
Definition Procedure (W : Type) : Type := Time.Duration -> W -> float64 * W.

(** The loop of [Sample] on a procedure.  The turns are those of
    [Sample_loop]; the call [s(time.Duration(i))] is the one place where
    the state is read and written.  [frames] starts empty at every
    invocation and nothing else outlives one. *)
Fixpoint Sample_run_loop {W : Type} (fuel : nat) (p : Procedure W)
    (step hi i : float64) (frames : list float64) (w : W)
    : option (list float64 * W) :=
  match fuel with
  | O => None
  | S fuel' =>
      if F64.ltb i hi then
        let '(val, w') := p (F64.to_int64 i) w in
        Sample_run_loop fuel' p step hi (F64.add i step) (frames ++ [val]) w'
      else Some (frames, w)
  end.

(** An invocation of [Sample] on a procedure, from the state [w]. *)
Definition Sample_run {W : Type} (fuel : nat) (p : Procedure W) (rate : Z)
    (from to : Time.Duration) (w : W) : option (list float64 * W) :=
  let step := F64.div (F64.of_int Time.Second) (F64.of_int rate) in
  Sample_run_loop fuel p step (F64.of_int (Int64.add from to)) (F64.of_int from) [] w.

(** A procedure that is not a function of its offset: it gives the number
    of calls made before this one. *)
Definition ticking : Procedure Z := fun _ w => (F64.of_int w, w + 1).

(** ** Floats compared with integers *)

(** The value [m * 2^e] counted in units of [2^(-2200)], an integer for
    every exponent the operations meet. *)
Definition scaled (m e : Z) : Z := m * 2 ^ (e + 2200).

(** The integer [k] is at most the float [x], a positive float or a
    zero. *)
Definition ge_int (x : spec_float) (k : Z) : Prop :=
  match x with
  | S754_zero _ => k <= 0
  | S754_finite false m e => k * 2 ^ 2200 <= scaled (Z.pos m) e
  | S754_infinity false => True
  | _ => False
  end.

(** ** Lemmas on the byte layout *)

Lemma shiftr_byte (v k : Z) : 0 <= k -> Z.shiftr v (8 * k) = v / 256 ^ k.
Proof.
  intros Hk. rewrite Z.shiftr_div_pow2 by lia.
  change 256 with (2 ^ 8). rewrite <- Z.pow_mul_r by lia. reflexivity.
Qed.

Lemma PutUint64_big_endian (buf : list Z) (v : Z) :
  length buf = 8%nat -> Binary.PutUint64 buf v = big_endian 8 v.
Proof.
  intros Hlen. unfold Binary.PutUint64.
  rewrite skipn_all2 by lia. rewrite app_nil_r.
  cbn [big_endian app]. unfold Binary.byte.
  change 56 with (8 * 7); change 48 with (8 * 6); change 40 with (8 * 5);
    change 32 with (8 * 4); change 24 with (8 * 3); change 16 with (8 * 2).
  replace (Z.shiftr v 8) with (Z.shiftr v (8 * 1)) by reflexivity.
  rewrite !shiftr_byte by lia.
  rewrite !Z.div_div by lia.
  reflexivity.
Qed.

Lemma big_endian_length (n : nat) (v : Z) : length (big_endian n v) = n.
Proof.
  revert v. induction n as [| n IH]; intro v; cbn [big_endian].
  - reflexivity.
  - rewrite length_app, IH. cbn. lia.
Qed.

Lemma big_endian_bytes (n : nat) (v : Z) : Forall is_byte (big_endian n v).
Proof.
  revert v. induction n as [| n IH]; intro v; cbn [big_endian].
  - constructor.
  - apply Forall_app. split; [apply IH|].
    constructor; [| constructor]. unfold is_byte. apply Z.mod_pos_bound. lia.
Qed.

Lemma EncodePCM_fold (frames : list float64) (buf b : list Z) :
  length buf = 8%nat ->
  snd (fold_left EncodePCM_step frames (buf, b))
  = b ++ concat (map (big_endian 8) frames).
Proof.
  revert buf b. induction frames as [| f frames IH]; intros buf b Hlen.
  - cbn. rewrite app_nil_r. reflexivity.
  - cbn [fold_left EncodePCM_step map concat]. unfold Math.Float64bits.
    rewrite PutUint64_big_endian by assumption.
    rewrite IH by apply big_endian_length.
    rewrite <- app_assoc. reflexivity.
Qed.

Lemma EncodePCM_concat (frames : list float64) :
  EncodePCM frames = concat (map (big_endian 8) frames).
Proof. unfold EncodePCM. rewrite EncodePCM_fold; reflexivity. Qed.

Lemma testbit_byte (x n : Z) :
  0 <= n -> Z.testbit (x mod 256) n = (n <? 8) && Z.testbit x n.
Proof.
  intros Hn. change 256 with (2 ^ 8).
  destruct (Z.ltb_spec n 8).
  - rewrite Z.mod_pow2_bits_low by lia. reflexivity.
  - rewrite Z.mod_pow2_bits_high by lia. reflexivity.
Qed.

Lemma testbit_byte_at (v k n : Z) :
  0 <= k -> 0 <= n ->
  Z.testbit ((v / 2 ^ k) mod 2 ^ 8) (n - k)
  = (k <=? n) && (n <? k + 8) && Z.testbit v n.
Proof.
  intros Hk Hn.
  destruct (Z.leb_spec k n); cbn [andb].
  - destruct (Z.ltb_spec n (k + 8)); cbn [andb].
    + rewrite Z.mod_pow2_bits_low by lia.
      rewrite <- Z.shiftr_div_pow2, Z.shiftr_spec by lia.
      f_equal. lia.
    + apply Z.mod_pow2_bits_high. lia.
  - apply Z.testbit_neg_r. lia.
Qed.

Lemma Uint64_big_endian (v : Z) : 0 <= v < 2 ^ 64 -> Binary.Uint64 (big_endian 8 v) = v.
Proof.
  intros Hv. cbn [big_endian app]. unfold Binary.Uint64. cbn [nth].
  rewrite !Z.div_div by lia. cbn [Z.mul Pos.mul].
  apply Z.bits_inj'. intros n Hn.
  assert (Hhigh : 64 <= n -> Z.testbit v n = false).
  { intro H. destruct (Z.eq_dec v 0) as [-> | Hv0]; [apply Z.bits_0|].
    apply Z.bits_above_log2; [lia|].
    assert (Z.log2 v < 64) by (apply Z.log2_lt_pow2; lia). lia. }
  rewrite !Z.lor_spec, !Z.shiftl_spec by lia.
  replace (Z.testbit (v mod 256) n)
    with (Z.testbit ((v / 2 ^ 0) mod 2 ^ 8) (n - 0))
    by (rewrite Z.pow_0_r, Z.div_1_r, Z.sub_0_r; reflexivity).
  change 256 with (2 ^ 8).
  change 65536 with (2 ^ 16). change 16777216 with (2 ^ 24).
  change 4294967296 with (2 ^ 32). change 1099511627776 with (2 ^ 40).
  change 281474976710656 with (2 ^ 48). change 72057594037927936 with (2 ^ 56).
  rewrite !testbit_byte_at by lia.
  repeat (match goal with
          | |- context [Z.leb ?a ?b] => destruct (Z.leb_spec a b)
          | |- context [Z.ltb ?a ?b] => destruct (Z.ltb_spec a b)
          end; try lia; cbn [andb orb]);
    rewrite ?orb_false_r; try reflexivity.
  symmetry. apply Hhigh. lia.
Qed.

Lemma DecodePCM_app (v : Z) (rest : list Z) :
  DecodePCM (big_endian 8 v ++ rest) = Binary.Uint64 (big_endian 8 v) :: DecodePCM rest.
Proof. reflexivity. Qed.

Lemma DecodePCM_EncodePCM (frames : list float64) :
  Forall is_float64 frames -> DecodePCM (EncodePCM frames) = frames.
Proof.
  intros H. rewrite EncodePCM_concat.
  induction H as [| f frames Hf _ IH]; [reflexivity|].
  cbn [map concat]. rewrite DecodePCM_app, IH, Uint64_big_endian by exact Hf.
  reflexivity.
Qed.

(** ** Rounding of exactly representable values *)

Lemma digits2_pos_bounds (p : positive) :
  2 ^ (Z.pos (digits2_pos p) - 1) <= Z.pos p < 2 ^ Z.pos (digits2_pos p).
Proof.
  induction p as [p IH | p IH |]; cbn [digits2_pos].
  - rewrite Pos2Z.inj_succ.
    replace (Z.succ (Z.pos (digits2_pos p)) - 1) with (Z.succ (Z.pos (digits2_pos p) - 1)) by lia.
    rewrite !Z.pow_succ_r by lia. lia.
  - rewrite Pos2Z.inj_succ.
    replace (Z.succ (Z.pos (digits2_pos p)) - 1) with (Z.succ (Z.pos (digits2_pos p) - 1)) by lia.
    rewrite !Z.pow_succ_r by lia. lia.
  - cbn. lia.
Qed.

Lemma digits2_pos_unique (p : positive) (d : Z) :
  2 ^ (d - 1) <= Z.pos p < 2 ^ d -> Z.pos (digits2_pos p) = d.
Proof.
  intros [Hlo Hhi].
  destruct (digits2_pos_bounds p) as [Hlo' Hhi'].
  assert (0 < d).
  { destruct (Z.lt_trichotomy d 0) as [Hd | [Hd | Hd]]; try lia.
    - rewrite Z.pow_neg_r in Hhi by lia. lia.
    - subst d. cbn in Hhi. lia. }
  assert (d - 1 < Z.pos (digits2_pos p)).
  { apply (Z.pow_lt_mono_r_iff 2); lia. }
  assert (Z.pos (digits2_pos p) - 1 < d).
  { apply (Z.pow_lt_mono_r_iff 2); lia. }
  lia.
Qed.

Lemma iter_xO_spec (k m : positive) :
  Z.pos (Pos.iter xO m k) = Z.pos m * 2 ^ Z.pos k.
Proof.
  induction k as [| k IH] using Pos.peano_ind.
  - cbn. lia.
  - rewrite Pos.iter_succ, Pos2Z.inj_succ, Z.pow_succ_r by lia.
    rewrite Pos2Z.inj_xO, IH. lia.
Qed.

Lemma iter_pos_iter {A : Type} (f : A -> A) (p : positive) (x : A) :
  iter_pos f p x = Pos.iter f x p.
Proof.
  revert x; induction p as [p IH | p IH |]; intro x; cbn.
  - rewrite !IH. rewrite <- !Pos.iter_swap. reflexivity.
  - rewrite !IH. reflexivity.
  - reflexivity.
Qed.

Lemma shr_1_iter_xO (k m : positive) :
  iter_pos shr_1 k (Build_shr_record (Z.pos (Pos.iter xO m k)) false false)
  = Build_shr_record (Z.pos m) false false.
Proof.
  rewrite iter_pos_iter.
  induction k as [| k IH] using Pos.peano_ind.
  - reflexivity.
  - rewrite Pos.iter_succ_r. rewrite Pos.iter_succ. cbn [shr_1 orb]. exact IH.
Qed.

Lemma digits2_pos_iter_xO (k m : positive) :
  Z.pos (digits2_pos (Pos.iter xO m k)) = Z.pos (digits2_pos m) + Z.pos k.
Proof.
  induction k as [| k IH] using Pos.peano_ind.
  - cbn. lia.
  - rewrite Pos.iter_succ. cbn [digits2_pos]. rewrite !Pos2Z.inj_succ, IH. lia.
Qed.

Lemma fexp_normal (e : Z) : -1074 <= e -> fexp F64.prec F64.emax (53 + e) = e.
Proof. intros H. unfold fexp, emin, F64.prec, F64.emax. lia. Qed.

Lemma binary_round_aux_normal (s : bool) (M : positive) (E : Z) :
  Z.pos (digits2_pos M) = 53 -> -1074 <= E <= 971 ->
  binary_round_aux F64.prec F64.emax s (Z.pos M) E loc_Exact = S754_finite s M E.
Proof.
  intros HM HE.
  unfold binary_round_aux, shr_fexp. cbn [Zdigits2 shr_record_of_loc].
  rewrite HM, fexp_normal, Z.sub_diag by lia.
  cbn [shr shr_m loc_of_shr_record round_nearest_even Zdigits2 shr_record_of_loc].
  rewrite HM, fexp_normal, Z.sub_diag by lia.
  cbn [shr shr_m].
  replace (E <=? F64.emax - F64.prec) with true; [reflexivity|].
  symmetry. apply Z.leb_le. unfold F64.emax, F64.prec. lia.
Qed.

Lemma binary_round_aux_shr (s : bool) (M k : positive) (E : Z) :
  Z.pos (digits2_pos M) = 53 -> -1074 <= E <= 971 ->
  binary_round_aux F64.prec F64.emax s (Z.pos (Pos.iter xO M k)) (E - Z.pos k) loc_Exact
  = S754_finite s M E.
Proof.
  intros HM HE.
  unfold binary_round_aux, shr_fexp. cbn [Zdigits2 shr_record_of_loc].
  rewrite digits2_pos_iter_xO, HM.
  replace (53 + Z.pos k + (E - Z.pos k)) with (53 + E) by lia.
  rewrite fexp_normal by lia.
  replace (E - (E - Z.pos k)) with (Z.pos k) by lia.
  cbn [shr]. rewrite shr_1_iter_xO.
  cbn [shr_m loc_of_shr_record round_nearest_even Zdigits2 shr_record_of_loc].
  replace (E - Z.pos k + Z.pos k) with E by lia.
  rewrite HM, fexp_normal, Z.sub_diag by lia.
  cbn [shr shr_m].
  replace (E <=? F64.emax - F64.prec) with true; [reflexivity|].
  symmetry. apply Z.leb_le. unfold F64.emax, F64.prec. lia.
Qed.

Lemma pos_eq_of_Z (p q : positive) : Z.pos p = Z.pos q -> p = q.
Proof. intro H. injection H. trivial. Qed.

Lemma digits_of_scaled (m M : positive) (k : Z) :
  0 <= k -> Z.pos m = Z.pos M * 2 ^ k ->
  Z.pos (digits2_pos m) = Z.pos (digits2_pos M) + k.
Proof.
  intros Hk H.
  destruct k as [| k | k]; try lia.
  - rewrite Z.pow_0_r, Z.mul_1_r in H. apply pos_eq_of_Z in H. subst. lia.
  - rewrite <- iter_xO_spec in H. apply pos_eq_of_Z in H. subst.
    apply digits2_pos_iter_xO.
Qed.

Lemma binary_round_exact (s : bool) (m : positive) (e : Z) (M : positive) (E : Z) :
  Z.pos (digits2_pos M) = 53 -> -1074 <= E <= 971 ->
  same_value m e M E ->
  binary_round F64.prec F64.emax s m e = S754_finite s M E.
Proof.
  intros HM HE [[Hle Hv] | [Hle Hv]].
  - (* the mantissa is too long: it is shifted right *)
    assert (Hd : Z.pos (digits2_pos m) = 53 + (E - e)).
    { rewrite (digits_of_scaled m M (E - e)); lia. }
    unfold binary_round. rewrite Hd.
    replace (53 + (E - e) + e) with (53 + E) by lia.
    rewrite fexp_normal by lia.
    unfold shl_align.
    destruct (E - e) as [| k | k] eqn:Hk; try lia.
    + rewrite Z.pow_0_r, Z.mul_1_r in Hv. apply pos_eq_of_Z in Hv. subst m.
      replace e with E by lia. apply binary_round_aux_normal; assumption.
    + rewrite <- iter_xO_spec in Hv. apply pos_eq_of_Z in Hv. subst m.
      replace e with (E - Z.pos k) by lia.
      apply binary_round_aux_shr; assumption.
  - (* the mantissa is too short: it is shifted left *)
    assert (Hd : Z.pos (digits2_pos m) + (e - E) = 53).
    { rewrite <- HM. symmetry. apply digits_of_scaled; lia. }
    unfold binary_round.
    replace (Z.pos (digits2_pos m) + e) with (53 + E) by lia.
    rewrite fexp_normal by lia.
    unfold shl_align.
    destruct (E - e) as [| k | k] eqn:Hk; try lia.
    + replace (e - E) with 0 in Hv by lia.
      rewrite Z.pow_0_r, Z.mul_1_r in Hv. apply pos_eq_of_Z in Hv. subst m.
      replace e with E by lia. apply binary_round_aux_normal; assumption.
    + replace (e - E) with (Z.pos k) in Hv by lia.
      rewrite <- iter_xO_spec in Hv. apply pos_eq_of_Z in Hv. rewrite <- Hv.
      apply binary_round_aux_normal; assumption.
Qed.

Lemma digits_spec (n : Z) : 0 < n -> 2 ^ (digits n - 1) <= n < 2 ^ digits n.
Proof.
  intro H. unfold digits.
  replace (Z.log2 n + 1 - 1) with (Z.log2 n) by lia.
  replace (Z.log2 n + 1) with (Z.succ (Z.log2 n)) by lia.
  apply Z.log2_spec; assumption.
Qed.

Lemma digits_range (n : Z) : 0 < n < 2 ^ 53 -> 1 <= digits n <= 53.
Proof.
  intros [H0 H1]. unfold digits.
  pose proof (Z.log2_nonneg n).
  assert (Z.log2 n < 53) by (apply Z.log2_lt_pow2; lia).
  lia.
Qed.

Lemma pow2_split (a b : Z) : 0 <= a -> 0 <= b -> 2 ^ (a + b) = 2 ^ a * 2 ^ b.
Proof. intros. apply Z.pow_add_r; assumption. Qed.

Lemma int_mant_spec (n : Z) :
  0 < n < 2 ^ 53 ->
  Z.pos (int_mant n) = n * 2 ^ (53 - digits n) /\
  2 ^ 52 <= Z.pos (int_mant n) < 2 ^ 53.
Proof.
  intros Hn.
  pose proof (digits_range n Hn) as Hd.
  destruct (digits_spec n) as [Hlo Hhi]; [lia|].
  assert (Hp : 0 < 2 ^ (53 - digits n)) by (apply Z.pow_pos_nonneg; lia).
  assert (Hv : Z.pos (int_mant n) = n * 2 ^ (53 - digits n)).
  { unfold int_mant. rewrite Z2Pos.id; [reflexivity | nia]. }
  split; [exact Hv|]. rewrite Hv.
  assert (E52 : 2 ^ 52 = 2 ^ (digits n - 1) * 2 ^ (53 - digits n)).
  { rewrite <- pow2_split by lia. f_equal. lia. }
  assert (E53 : 2 ^ 53 = 2 ^ digits n * 2 ^ (53 - digits n)).
  { rewrite <- pow2_split by lia. f_equal. lia. }
  rewrite E52 at 1. rewrite E53. nia.
Qed.

Lemma int_mant_digits (n : Z) :
  0 < n < 2 ^ 53 -> Z.pos (digits2_pos (int_mant n)) = 53.
Proof.
  intro Hn. apply digits2_pos_unique.
  destruct (int_mant_spec n Hn) as [_ H]. exact H.
Qed.

Lemma binary_round_int (s : bool) (m : positive) (e n : Z) :
  0 < n < 2 ^ 53 -> e <= 0 -> Z.pos m = n * 2 ^ (- e) ->
  binary_round F64.prec F64.emax s m e
  = S754_finite s (int_mant n) (digits n - 53).
Proof.
  intros Hn He Hm.
  pose proof (digits_range n Hn) as Hd.
  destruct (int_mant_spec n Hn) as [HM _].
  apply binary_round_exact.
  - apply int_mant_digits; assumption.
  - lia.
  - unfold same_value. rewrite HM, Hm.
    destruct (Z_le_gt_dec e (digits n - 53)) as [Hle | Hgt]; [left | right];
      (split; [lia|]).
    + rewrite <- Z.mul_assoc, <- pow2_split by lia. do 2 f_equal. lia.
    + rewrite <- Z.mul_assoc, <- pow2_split by lia. do 2 f_equal. lia.
Qed.

Lemma binary_normalize_int (n : Z) :
  0 <= n < 2 ^ 53 -> binary_normalize F64.prec F64.emax n 0 false = sf_int n.
Proof.
  intros Hn. unfold sf_int.
  destruct n as [| p | p]; try lia; cbn [Z.eqb binary_normalize].
  - reflexivity.
  - apply binary_round_int; [lia | lia |]. cbn. lia.
Qed.

Lemma sf_int_add (a b : Z) :
  0 <= a -> 0 <= b -> a + b < 2 ^ 53 ->
  SFadd F64.prec F64.emax (sf_int a) (sf_int b) = sf_int (a + b).
Proof.
  intros Ha Hb Hab.
  unfold sf_int at 1 2.
  destruct (Z.eqb_spec a 0) as [-> | Ha0]; destruct (Z.eqb_spec b 0) as [-> | Hb0];
    cbn [SFadd].
  - reflexivity.
  - unfold sf_int. destruct (Z.eqb_spec (0 + b) 0); [lia|]. reflexivity.
  - rewrite Z.add_0_r. unfold sf_int. destruct (Z.eqb_spec a 0); [lia|]. reflexivity.
  - assert (Han : 0 < a < 2 ^ 53) by lia.
    assert (Hbn : 0 < b < 2 ^ 53) by lia.
    pose proof (digits_range a Han) as Hda.
    pose proof (digits_range b Hbn) as Hdb.
    destruct (int_mant_spec a Han) as [HMa _].
    destruct (int_mant_spec b Hbn) as [HMb _].
    set (ez := Z.min (digits a - 53) (digits b - 53)).
    assert (Hez : ez <= 0) by (unfold ez; lia).
    assert (Hal : forall (M : positive) (E n : Z),
               ez <= E -> E <= 0 -> Z.pos M = n * 2 ^ (- E) ->
               Z.pos (fst (shl_align M E ez)) = n * 2 ^ (- ez)).
    { intros M E n H1 H2 H3. unfold shl_align.
      destruct (ez - E) as [| k | k] eqn:Hk; try lia; cbn [fst].
      - replace ez with E by lia. exact H3.
      - rewrite iter_xO_spec, H3, <- Z.mul_assoc, <- pow2_split by lia.
        do 2 f_equal. lia. }
    rewrite (Hal (int_mant a) (digits a - 53) a); [| unfold ez; lia | lia |].
    2:{ rewrite HMa. do 2 f_equal. lia. }
    rewrite (Hal (int_mant b) (digits b - 53) b); [| unfold ez; lia | lia |].
    2:{ rewrite HMb. do 2 f_equal. lia. }
    cbn [cond_Zopp].
    assert (Hp : 0 < 2 ^ (- ez)) by (apply Z.pow_pos_nonneg; lia).
    destruct (a * 2 ^ (- ez) + b * 2 ^ (- ez)) as [| m | m] eqn:Hs; try nia.
    cbn [binary_normalize].
    unfold sf_int. destruct (Z.eqb_spec (a + b) 0); [lia|].
    apply binary_round_int; [lia | lia |]. lia.
Qed.

Lemma sf_int_ltb (a b : Z) :
  0 <= a < 2 ^ 53 -> 0 <= b < 2 ^ 53 ->
  SFltb (sf_int a) (sf_int b) = (a <? b).
Proof.
  intros Ha Hb. unfold SFltb, sf_int.
  destruct (Z.eqb_spec a 0) as [-> | Ha0]; destruct (Z.eqb_spec b 0) as [-> | Hb0];
    cbn [SFcompare].
  - reflexivity.
  - symmetry. apply Z.ltb_lt. lia.
  - symmetry. apply Z.ltb_ge. lia.
  - assert (Han : 0 < a < 2 ^ 53) by lia.
    assert (Hbn : 0 < b < 2 ^ 53) by lia.
    pose proof (digits_range a Han) as Hda.
    pose proof (digits_range b Hbn) as Hdb.
    destruct (int_mant_spec a Han) as [HMa _].
    destruct (int_mant_spec b Hbn) as [HMb _].
    destruct (digits_spec a) as [Hla Hha]; [lia|].
    destruct (digits_spec b) as [Hlb Hhb]; [lia|].
    destruct (Z.compare_spec (digits a - 53) (digits b - 53)) as [He | He | He].
    + (* same exponent: the mantissas decide *)
      change (Pos.compare_cont Eq (int_mant a) (int_mant b))
        with (Z.pos (int_mant a) ?= Z.pos (int_mant b)).
      rewrite HMa, HMb.
      replace (digits b) with (digits a) by lia.
      assert (Hp : 0 < 2 ^ (53 - digits a)) by (apply Z.pow_pos_nonneg; lia).
      destruct (Z.compare_spec (a * 2 ^ (53 - digits a)) (b * 2 ^ (53 - digits a)));
        symmetry; [apply Z.ltb_ge | apply Z.ltb_lt | apply Z.ltb_ge]; nia.
    + symmetry. apply Z.ltb_lt.
      assert (2 ^ digits a <= 2 ^ (digits b - 1)) by (apply Z.pow_le_mono_r; lia).
      lia.
    + symmetry. apply Z.ltb_ge.
      assert (2 ^ digits b <= 2 ^ (digits a - 1)) by (apply Z.pow_le_mono_r; lia).
      lia.
Qed.

Lemma sf_int_trunc (a : Z) : 0 <= a < 2 ^ 53 -> F64.trunc (sf_int a) = Some a.
Proof.
  intros Ha. unfold sf_int.
  destruct (Z.eqb_spec a 0) as [-> | Ha0]; [reflexivity|].
  assert (Han : 0 < a < 2 ^ 53) by lia.
  pose proof (digits_range a Han) as Hda.
  destruct (int_mant_spec a Han) as [HMa _].
  cbn [F64.trunc]. f_equal.
  destruct (digits a - 53) as [| k | k] eqn:Hk; try lia.
  - rewrite HMa. replace (53 - digits a) with 0 by lia. rewrite Z.pow_0_r. lia.
  - rewrite HMa. replace (53 - digits a) with (Z.pos k) by lia.
    apply Z.div_mul. apply Z.pow_nonzero; lia.
Qed.

(** ** Encoding and decoding of floats *)

Lemma testbit_63 (z : Z) (s : bool) :
  0 <= z < 2 ^ 63 -> Z.testbit (F64.with_sign s z) 63 = s.
Proof.
  intros Hz. rewrite Z.testbit_odd, Z.shiftr_div_pow2 by lia.
  unfold F64.with_sign, F64.sign_bit.
  destruct s.
  - replace ((2 ^ 63 + z) / 2 ^ 63) with 1; [reflexivity|].
    apply Z.div_unique with (r := z); lia.
  - rewrite Z.div_small by lia. reflexivity.
Qed.

Lemma exp_of_with_sign (z : Z) (s : bool) :
  0 <= z < 2 ^ 63 -> F64.exp_of (F64.with_sign s z) = z / 2 ^ 52.
Proof.
  intros Hz. unfold F64.exp_of, F64.with_sign, F64.sign_bit, F64.mant_mod.
  change (2 ^ 63) with 9223372036854775808 in *.
  change (2 ^ 52) with 4503599627370496.
  destruct s; Z.div_mod_to_equations; lia.
Qed.

Lemma mant_of_with_sign (z : Z) (s : bool) :
  0 <= z < 2 ^ 63 -> F64.mant_of (F64.with_sign s z) = z mod 2 ^ 52.
Proof.
  intros Hz. unfold F64.mant_of, F64.with_sign, F64.sign_bit, F64.mant_mod.
  change (2 ^ 63) with 9223372036854775808 in *.
  change (2 ^ 52) with 4503599627370496.
  destruct s; Z.div_mod_to_equations; lia.
Qed.

(** Encoding then decoding a normal float gives it back. *)
Lemma SF_F64_normal (s : bool) (M : positive) (E : Z) :
  2 ^ 52 <= Z.pos M < 2 ^ 53 -> -1074 <= E <= 971 ->
  F64.SF (F64.F64 (S754_finite s M E)) = S754_finite s M E.
Proof.
  intros HM HE. cbn [F64.F64]. unfold F64.mant_mod.
  destruct (Z.ltb_spec (Z.pos M) (2 ^ 52)) as [Hlt | _]; [lia|].
  set (z := (E + 1075) * 2 ^ 52 + (Z.pos M - 2 ^ 52)).
  assert (Hz : 0 <= z < 2 ^ 63).
  { unfold z. change (2 ^ 63) with 9223372036854775808.
    change (2 ^ 52) with 4503599627370496 in *.
    change (2 ^ 53) with 9007199254740992 in *. lia. }
  assert (He : z / 2 ^ 52 = E + 1075).
  { symmetry. apply Z.div_unique with (r := Z.pos M - 2 ^ 52).
    - left. change (2 ^ 52) with 4503599627370496 in *.
      change (2 ^ 53) with 9007199254740992 in *. lia.
    - unfold z. ring. }
  assert (Hm : z mod 2 ^ 52 = Z.pos M - 2 ^ 52).
  { symmetry. apply Z.mod_unique with (q := E + 1075).
    - left. change (2 ^ 52) with 4503599627370496 in *.
      change (2 ^ 53) with 9007199254740992 in *. lia.
    - unfold z. ring. }
  unfold F64.SF, F64.sign_of.
  rewrite testbit_63, exp_of_with_sign, mant_of_with_sign, He, Hm by assumption.
  unfold F64.exp_inf, F64.mant_mod.
  destruct (Z.eqb_spec (E + 1075) 0); [lia|].
  destruct (Z.eqb_spec (E + 1075) 2047); [lia|].
  replace (Z.pos M - 2 ^ 52 + 2 ^ 52) with (Z.pos M) by lia.
  replace (E + 1075 - 1075) with E by lia.
  reflexivity.
Qed.

Lemma SF_F64_int (n : Z) : 0 <= n < 2 ^ 53 -> F64.SF (F64.F64 (sf_int n)) = sf_int n.
Proof.
  intros Hn. unfold sf_int.
  destruct (Z.eqb_spec n 0) as [-> | Hn0]; [reflexivity|].
  assert (Hnn : 0 < n < 2 ^ 53) by lia.
  pose proof (digits_range n Hnn).
  apply SF_F64_normal; [apply int_mant_spec; assumption | lia].
Qed.

Lemma SF_of_int (n : Z) : 0 <= n < 2 ^ 53 -> F64.SF (F64.of_int n) = sf_int n.
Proof.
  intros Hn. unfold F64.of_int. rewrite binary_normalize_int by assumption.
  apply SF_F64_int; assumption.
Qed.

Lemma add_of_int (a b : Z) :
  0 <= a -> 0 <= b -> a + b < 2 ^ 53 ->
  F64.add (F64.of_int a) (F64.of_int b) = F64.of_int (a + b).
Proof.
  intros Ha Hb Hab. unfold F64.add.
  rewrite !SF_of_int, sf_int_add by lia.
  unfold F64.of_int. rewrite binary_normalize_int by lia. reflexivity.
Qed.

Lemma ltb_of_int (a b : Z) :
  0 <= a < 2 ^ 53 -> 0 <= b < 2 ^ 53 ->
  F64.ltb (F64.of_int a) (F64.of_int b) = (a <? b).
Proof.
  intros Ha Hb. unfold F64.ltb. rewrite !SF_of_int by assumption.
  apply sf_int_ltb; assumption.
Qed.

Lemma to_int64_of_int (a : Z) :
  0 <= a < 2 ^ 53 -> F64.to_int64 (F64.of_int a) = a.
Proof.
  intros Ha. unfold F64.to_int64.
  rewrite SF_of_int, sf_int_trunc by assumption.
  assert (H1 : (Int64.min_signed <=? a) = true).
  { apply Z.leb_le. unfold Int64.min_signed. lia. }
  assert (H2 : (a <=? Int64.max_signed) = true).
  { apply Z.leb_le. unfold Int64.max_signed.
    change (2 ^ 53) with 9007199254740992 in Ha.
    change (2 ^ 63) with 9223372036854775808. lia. }
  rewrite H1, H2. reflexivity.
Qed.

Lemma SF_two : F64.SF F64.two = S754_finite false 4503599627370496 (-51).
Proof. reflexivity. Qed.
Lemma SF_Pi : F64.SF Math.Pi = S754_finite false pi_mant (-51).
Proof. reflexivity. Qed.
Lemma SF_two_pi : F64.SF two_pi = S754_finite false pi_mant (-50).
Proof. vm_compute. reflexivity. Qed.

Lemma exp_of_range (x : float64) : 0 <= F64.exp_of x < 2048.
Proof. unfold F64.exp_of. apply Z.mod_pos_bound. lia. Qed.

Lemma mant_of_range (x : float64) : 0 <= F64.mant_of x < 2 ^ 52.
Proof. unfold F64.mant_of, F64.mant_mod. apply Z.mod_pos_bound. lia. Qed.

Lemma SF_decoded (x : float64) : decoded (F64.SF x).
Proof.
  unfold F64.SF.
  pose proof (exp_of_range x) as He. pose proof (mant_of_range x) as Hm.
  destruct (Z.eqb_spec (F64.exp_of x) 0) as [E0 | E0].
  - destruct (Z.eqb_spec (F64.mant_of x) 0); [constructor|].
    apply dec_subnormal. rewrite Z2Pos.id; lia.
  - unfold F64.exp_inf, F64.mant_mod.
    destruct (Z.eqb_spec (F64.exp_of x) 2047).
    + destruct (F64.mant_of x =? 0); constructor.
    + apply dec_normal; [| lia].
      rewrite Z2Pos.id by lia.
      change (2 ^ 53) with (2 ^ 52 + 2 ^ 52). lia.
Qed.

Lemma SF_F64_subnormal (s : bool) (M : positive) :
  Z.pos M < 2 ^ 52 ->
  F64.SF (F64.F64 (S754_finite s M (-1074))) = S754_finite s M (-1074).
Proof.
  intros HM. cbn [F64.F64]. unfold F64.mant_mod.
  destruct (Z.ltb_spec (Z.pos M) (2 ^ 52)) as [_ | Hge]; [| lia].
  assert (Hz : 0 <= Z.pos M < 2 ^ 63).
  { change (2 ^ 63) with 9223372036854775808.
    change (2 ^ 52) with 4503599627370496 in HM. lia. }
  unfold F64.SF, F64.sign_of.
  rewrite testbit_63, exp_of_with_sign, mant_of_with_sign by assumption.
  rewrite Z.div_small, Z.mod_small by lia.
  cbn [Z.eqb]. rewrite Pos2Z.id. reflexivity.
Qed.

Lemma SF_F64_decoded (x : spec_float) : decoded x -> F64.SF (F64.F64 x) = x.
Proof.
  intros [s | s | | s m Hm | s m e Hm He].
  - destruct s; reflexivity.
  - destruct s; reflexivity.
  - reflexivity.
  - apply SF_F64_subnormal; assumption.
  - apply SF_F64_normal; assumption.
Qed.

(** ** Doubling and the product with [math.Pi] *)

Lemma fexp_ge (e : Z) : -1074 <= fexp F64.prec F64.emax e /\ e - 53 <= fexp F64.prec F64.emax e.
Proof. unfold fexp, emin, F64.prec, F64.emax. lia. Qed.

Lemma fexp_small (e : Z) : e <= -1021 -> fexp F64.prec F64.emax e = -1074.
Proof. unfold fexp, emin, F64.prec, F64.emax. lia. Qed.

(** Doubling a float: the mantissa is kept and the exponent grows by one,
    up to overflow. *)
Lemma binary_round_aux_double (s : bool) (M : positive) (e : Z) :
  Z.pos (digits2_pos M) = 53 -> -1074 <= e ->
  binary_round_aux F64.prec F64.emax s (Z.pos (M * 4503599627370496)) (e + -51) loc_Exact
  = if e + 1 <=? 971 then S754_finite s M (e + 1) else S754_infinity s.
Proof.
  intros HM He.
  assert (HP : (M * 4503599627370496)%positive = Pos.iter xO M 52).
  { apply pos_eq_of_Z. rewrite iter_xO_spec, Pos2Z.inj_mul. reflexivity. }
  rewrite HP.
  unfold binary_round_aux, shr_fexp. cbn [Zdigits2 shr_record_of_loc].
  rewrite digits2_pos_iter_xO, HM.
  replace (53 + 52 + (e + -51)) with (53 + (e + 1)) by lia.
  rewrite fexp_normal by lia.
  replace (e + 1 - (e + -51)) with 52 by lia.
  cbn [shr]. rewrite shr_1_iter_xO.
  cbn [shr_m loc_of_shr_record round_nearest_even Zdigits2 shr_record_of_loc].
  replace (e + -51 + 52) with (e + 1) by lia.
  rewrite HM, fexp_normal, Z.sub_diag by lia.
  cbn [shr shr_m]. reflexivity.
Qed.

Lemma shr_1_m (mrs : shr_record) :
  0 <= shr_m mrs -> shr_m (shr_1 mrs) = shr_m mrs / 2.
Proof.
  destruct mrs as [m r s]. cbn [shr_m]. intros Hm.
  destruct m as [| [p | p |] | p]; try lia; cbn [shr_1 shr_m].
  - reflexivity.
  - rewrite Pos2Z.inj_xI. apply Z.div_unique with (r := 1); lia.
  - rewrite Pos2Z.inj_xO. apply Z.div_unique with (r := 0); lia.
  - reflexivity.
Qed.

Lemma shr_iter_m (k : positive) (mrs : shr_record) :
  0 <= shr_m mrs -> shr_m (iter_pos shr_1 k mrs) = shr_m mrs / 2 ^ Z.pos k.
Proof.
  rewrite iter_pos_iter. revert mrs.
  induction k as [| k IH] using Pos.peano_ind; intros mrs Hm.
  - cbn [Pos.iter]. rewrite shr_1_m by assumption. reflexivity.
  - rewrite Pos.iter_succ_r, IH.
    + rewrite shr_1_m by assumption.
      rewrite Pos2Z.inj_succ, Z.pow_succ_r, Z.div_div by lia. reflexivity.
    + rewrite shr_1_m by assumption. apply Z.div_pos; lia.
Qed.

Lemma shr_m_pos (mrs : shr_record) (e n : Z) (p : positive) :
  shr_m mrs = Z.pos p -> n < Z.pos (digits2_pos p) ->
  exists p', shr_m (fst (shr mrs e n)) = Z.pos p'.
Proof.
  intros Hm Hn.
  destruct n as [| k | k]; cbn [shr fst]; try (exists p; exact Hm).
  rewrite shr_iter_m, Hm by lia.
  destruct (digits2_pos_bounds p) as [Hlo _].
  assert (2 ^ Z.pos k <= Z.pos p).
  { eapply Z.le_trans; [| exact Hlo]. apply Z.pow_le_mono_r; lia. }
  assert (0 < Z.pos p / 2 ^ Z.pos k).
  { apply Z.div_str_pos. split; [apply Z.pow_pos_nonneg; lia | assumption]. }
  destruct (Z.pos p / 2 ^ Z.pos k) as [| p' | p']; try lia.
  exists p'. reflexivity.
Qed.

Lemma shr_e (mrs : shr_record) (e n : Z) : e <= snd (shr mrs e n) /\ e + n <= snd (shr mrs e n).
Proof. destruct n; cbn [shr snd]; lia. Qed.

Lemma round_nearest_even_pos (p : positive) (l : location) :
  exists p', round_nearest_even (Z.pos p) l = Z.pos p'.
Proof.
  destruct l as [| [ | | ]]; cbn [round_nearest_even].
  - exists p; reflexivity.
  - destruct (Z.even (Z.pos p)); [exists p | exists (p + 1)%positive]; reflexivity.
  - exists p; reflexivity.
  - exists (p + 1)%positive; reflexivity.
Qed.

(** A product whose exponent is too large rounds to infinity. *)
Lemma binary_round_aux_overflow (s : bool) (P : positive) (e : Z) :
  53 <= Z.pos (digits2_pos P) -> 971 < Z.pos (digits2_pos P) + e - 53 ->
  binary_round_aux F64.prec F64.emax s (Z.pos P) e loc_Exact = S754_infinity s.
Proof.
  intros HP He.
  unfold binary_round_aux, shr_fexp. cbn [Zdigits2 shr_record_of_loc].
  set (f1 := fexp F64.prec F64.emax (Z.pos (digits2_pos P) + e)).
  assert (Hf1 : f1 = Z.pos (digits2_pos P) + e - 53).
  { unfold f1, fexp, emin, F64.prec, F64.emax. lia. }
  destruct (shr {| shr_m := Z.pos P; shr_r := false; shr_s := false |} e (f1 - e))
    as [mrs1 e1] eqn:H1.
  destruct (shr_m_pos {| shr_m := Z.pos P; shr_r := false; shr_s := false |}
              e (f1 - e) P eq_refl ltac:(lia)) as [p1 Hp1].
  pose proof (shr_e {| shr_m := Z.pos P; shr_r := false; shr_s := false |} e (f1 - e)) as He1.
  rewrite H1 in Hp1, He1. cbn [fst snd] in Hp1, He1.
  rewrite Hp1.
  destruct (round_nearest_even_pos p1 (loc_of_shr_record mrs1)) as [p2 Hp2].
  rewrite Hp2. cbn [Zdigits2].
  set (f2 := fexp F64.prec F64.emax (Z.pos (digits2_pos p2) + e1)).
  assert (Hf2 : f2 = Z.pos (digits2_pos p2) + e1 - 53).
  { unfold f2, fexp, emin, F64.prec, F64.emax. lia. }
  destruct (shr {| shr_m := Z.pos p2; shr_r := false; shr_s := false |} e1 (f2 - e1))
    as [mrs2 e2] eqn:H2.
  destruct (shr_m_pos {| shr_m := Z.pos p2; shr_r := false; shr_s := false |}
              e1 (f2 - e1) p2 eq_refl ltac:(lia)) as [p3 Hp3].
  pose proof (shr_e {| shr_m := Z.pos p2; shr_r := false; shr_s := false |} e1 (f2 - e1)) as He2.
  rewrite H2 in Hp3, He2. cbn [fst snd] in Hp3, He2.
  rewrite Hp3.
  destruct (Z.leb_spec e2 (F64.emax - F64.prec)) as [Hle | _]; [| reflexivity].
  unfold F64.emax, F64.prec in Hle. lia.
Qed.

(** A mantissa with one more zero bit and an exponent one lower round
    alike. *)
Lemma shr_fexp_xO (p : positive) (e : Z) :
  e <= fexp F64.prec F64.emax (Z.pos (digits2_pos p) + e) ->
  shr_fexp F64.prec F64.emax (Z.pos p~0) (e - 1) loc_Exact
  = shr_fexp F64.prec F64.emax (Z.pos p) e loc_Exact.
Proof.
  intros He. unfold shr_fexp. cbn [Zdigits2 digits2_pos shr_record_of_loc].
  rewrite Pos2Z.inj_succ.
  replace (Z.succ (Z.pos (digits2_pos p)) + (e - 1)) with (Z.pos (digits2_pos p) + e) by lia.
  set (f := fexp F64.prec F64.emax (Z.pos (digits2_pos p) + e)) in *.
  destruct (f - e) as [| k | k] eqn:Hk; try lia.
  - replace (f - (e - 1)) with 1 by lia. cbn [shr iter_pos shr_1 orb].
    f_equal. lia.
  - replace (f - (e - 1)) with (Z.pos (Pos.succ k)) by lia.
    cbn [shr]. rewrite !iter_pos_iter, Pos.iter_succ_r. cbn [shr_1 orb].
    f_equal. lia.
Qed.

Lemma binary_round_aux_xO (s : bool) (p : positive) (e : Z) :
  e <= fexp F64.prec F64.emax (Z.pos (digits2_pos p) + e) ->
  binary_round_aux F64.prec F64.emax s (Z.pos p~0) (e - 1) loc_Exact
  = binary_round_aux F64.prec F64.emax s (Z.pos p) e loc_Exact.
Proof.
  intros He. unfold binary_round_aux. rewrite shr_fexp_xO by assumption.
  reflexivity.
Qed.

Lemma digits2_pos_gt (P : positive) (k : Z) :
  2 ^ k <= Z.pos P -> k < Z.pos (digits2_pos P).
Proof.
  intros H. destruct (digits2_pos_bounds P) as [_ Hhi].
  apply (Z.pow_lt_mono_r_iff 2); lia.
Qed.

Lemma digits2_pos_le (P : positive) (k : Z) :
  0 <= k -> Z.pos P < 2 ^ k -> Z.pos (digits2_pos P) <= k.
Proof.
  intros Hk H. destruct (digits2_pos_bounds P) as [Hlo _].
  assert (Z.pos (digits2_pos P) - 1 < k); [| lia].
  apply (Z.pow_lt_mono_r_iff 2); lia.
Qed.

Lemma binary_round_aux_double_subnormal (s : bool) (m : positive) :
  Z.pos m < 2 ^ 52 ->
  binary_round_aux F64.prec F64.emax s (Z.pos (m * 4503599627370496)) (-1074 + -51) loc_Exact
  = S754_finite s (xO m) (-1074).
Proof.
  intros Hm.
  pose proof (digits2_pos_le m 52 ltac:(lia) Hm) as Hd.
  assert (HP : (m * 4503599627370496)%positive = Pos.iter xO (xO m) 51).
  { apply pos_eq_of_Z. rewrite iter_xO_spec, Pos2Z.inj_mul, Pos2Z.inj_xO.
    change (2 ^ Z.pos 51) with 2251799813685248. lia. }
  rewrite HP.
  unfold binary_round_aux, shr_fexp. cbn [Zdigits2 shr_record_of_loc].
  rewrite digits2_pos_iter_xO. cbn [digits2_pos]. rewrite Pos2Z.inj_succ.
  rewrite fexp_small by lia.
  replace (-1074 - (-1074 + -51)) with 51 by lia.
  cbn [shr]. rewrite shr_1_iter_xO.
  cbn [shr_m loc_of_shr_record round_nearest_even Zdigits2 shr_record_of_loc digits2_pos].
  rewrite Pos2Z.inj_succ.
  replace (-1074 + -51 + 51) with (-1074) by lia.
  rewrite fexp_small by lia.
  cbn [Z.sub Z.opp Z.add Z.pos_sub Pos.compare Pos.compare_cont Pos.sub shr shr_m].
  reflexivity.
Qed.

(** [(x * 2) * math.Pi] is [(2 * math.Pi) * x]: doubling is exact, so the
    two products round the same value. *)
Lemma mul_two_Pi (x : float64) :
  F64.mul (F64.mul x F64.two) Math.Pi = F64.mul two_pi x.
Proof.
  unfold F64.mul at 1 2 3. rewrite SF_two, SF_Pi, SF_two_pi.
  pose proof (SF_decoded x) as Hx.
  destruct Hx as [s | s | | s m Hm | s m e Hm He].
  - cbn [SFmul]. rewrite SF_F64_decoded by constructor. cbn [SFmul].
    destruct s; reflexivity.
  - cbn [SFmul]. rewrite SF_F64_decoded by constructor. cbn [SFmul].
    destruct s; reflexivity.
  - reflexivity.
  - cbn [SFmul]. rewrite binary_round_aux_double_subnormal by assumption.
    rewrite SF_F64_decoded.
    2:{ destruct (Z_lt_ge_dec (Z.pos (xO m)) (2 ^ 52)).
        - apply dec_subnormal; assumption.
        - apply dec_normal; [| lia]. rewrite Pos2Z.inj_xO in *.
          change (2 ^ 53) with (2 * 2 ^ 52). lia. }
    cbn [SFmul Pos.mul].
    replace (-1074 + -51) with (-50 + -1074 - 1) by lia.
    rewrite binary_round_aux_xO.
    2:{ pose proof (fexp_ge (Z.pos (digits2_pos (m * pi_mant)) + (-50 + -1074))). lia. }
    rewrite Pos.mul_comm. destruct s; reflexivity.
  - assert (Hd : Z.pos (digits2_pos m) = 53) by (apply digits2_pos_unique; exact Hm).
    cbn [SFmul]. rewrite binary_round_aux_double by (assumption || lia).
    destruct (Z.leb_spec (e + 1) 971) as [Hle | Hgt].
    + rewrite SF_F64_normal by (assumption || lia).
      cbn [SFmul]. rewrite Pos.mul_comm.
      replace (e + 1 + -51) with (-50 + e) by lia.
      destruct s; reflexivity.
    + rewrite SF_F64_decoded by constructor. cbn [SFmul].
      rewrite binary_round_aux_overflow.
      * destruct s; reflexivity.
      * assert (104 < Z.pos (digits2_pos (pi_mant * m))); [| lia].
        apply digits2_pos_gt. rewrite Pos2Z.inj_mul.
        change (2 ^ 104) with (2 ^ 52 * 2 ^ 52).
        apply Z.mul_le_mono_nonneg; try lia. unfold pi_mant.
        change (2 ^ 52) with 4503599627370496. lia.
      * assert (104 < Z.pos (digits2_pos (pi_mant * m))); [| lia].
        apply digits2_pos_gt. rewrite Pos2Z.inj_mul.
        change (2 ^ 104) with (2 ^ 52 * 2 ^ 52).
        apply Z.mul_le_mono_nonneg; try lia. unfold pi_mant.
        change (2 ^ 52) with 4503599627370496. lia.
Qed.

(** ** Lemmas on the sampling loop *)

(** More fuel does not change what the loop returns. *)
Lemma Sample_loop_fuel_mono (s : Signal) (step hi : float64) (n m : nat) :
  (n <= m)%nat ->
  forall (i : float64) (acc r : list float64),
  Sample_loop n s step hi i acc = Some r ->
  Sample_loop m s step hi i acc = Some r.
Proof.
  revert m. induction n as [| n IH]; intros m Hnm i acc r H.
  - discriminate.
  - destruct m as [| m]; [lia|]. cbn [Sample_loop] in *.
    destruct (F64.ltb i hi); [| exact H].
    apply IH; [lia | exact H].
Qed.

Lemma Sample_loop_deterministic (s : Signal) (step hi : float64) (n m : nat)
    (i : float64) (acc r1 r2 : list float64) :
  Sample_loop n s step hi i acc = Some r1 ->
  Sample_loop m s step hi i acc = Some r2 ->
  r1 = r2.
Proof.
  intros H1 H2.
  apply (Sample_loop_fuel_mono s step hi n (Nat.max n m)) in H1; [| lia].
  apply (Sample_loop_fuel_mono s step hi m (Nat.max n m)) in H2; [| lia].
  congruence.
Qed.

Lemma samples_S (s : Signal) (c q : Z) (n : nat) :
  samples s c q (S n) = s c :: samples s (c + q) q n.
Proof.
  unfold samples. cbn [seq map]. f_equal.
  - f_equal. lia.
  - rewrite <- seq_shift, map_map. apply map_ext. intro k. f_equal. lia.
Qed.

Lemma steps_done (c hi q : Z) : 0 < q -> hi <= c -> steps c hi q = 0%nat.
Proof.
  intros Hq H. unfold steps.
  assert ((hi - c + q - 1) / q <= 0).
  { apply Z.lt_succ_r. apply Z.div_lt_upper_bound; lia. }
  lia.
Qed.

Lemma steps_next (c hi q : Z) :
  0 < q -> c < hi -> steps c hi q = S (steps (c + q) hi q).
Proof.
  intros Hq H. unfold steps.
  replace (hi - c + q - 1) with ((hi - (c + q) + q - 1) + 1 * q) by lia.
  rewrite Z.div_add by lia.
  assert (0 <= (hi - (c + q) + q - 1) / q).
  { apply Z.div_pos; lia. }
  rewrite Z2Nat.inj_add by lia. cbn. lia.
Qed.

Lemma Sample_loop_exact (s : Signal) (q hi : Z) :
  0 < q -> 0 <= hi -> hi + q < 2 ^ 53 ->
  forall (n fuel : nat) (c : Z) (acc : list float64),
  0 <= c < 2 ^ 53 -> steps c hi q = n -> (n < fuel)%nat ->
  Sample_loop fuel s (F64.of_int q) (F64.of_int hi) (F64.of_int c) acc
  = Some (acc ++ samples s c q n).
Proof.
  intros Hq Hhi Hb.
  induction n as [| n IH]; intros fuel c acc Hc Hn Hf;
    (destruct fuel as [| fuel]; [lia|]); cbn [Sample_loop];
    rewrite ltb_of_int by lia.
  - destruct (Z.ltb_spec c hi) as [Hlt | Hge].
    + rewrite (steps_next c hi q) in Hn by lia. discriminate.
    + cbn. rewrite app_nil_r. reflexivity.
  - destruct (Z.ltb_spec c hi) as [Hlt | Hge].
    + rewrite (steps_next c hi q) in Hn by lia.
      rewrite to_int64_of_int, add_of_int by lia.
      rewrite IH; [| lia | lia | lia].
      rewrite samples_S, <- app_assoc. reflexivity.
    + rewrite steps_done in Hn by lia. discriminate.
Qed.

Lemma wrap64_in_range (z : Z) : Int64.in_range z -> Int64.wrap64 z = z.
Proof.
  unfold Int64.in_range, Int64.wrap64, Int64.min_signed, Int64.max_signed,
    Int64.half_modulus, Int64.modulus.
  change (2 ^ 63) with 9223372036854775808.
  change (2 ^ 64) with 18446744073709551616.
  intros H. Z.div_mod_to_equations. lia.
Qed.

Lemma Sample_exact (s : Signal) (rate q from to : Z) (fuel : nat) :
  F64.div (F64.of_int Time.Second) (F64.of_int rate) = F64.of_int q ->
  0 < q -> 0 <= from -> 0 <= to -> from + to + q < 2 ^ 53 ->
  (steps 0 to q < fuel)%nat ->
  Sample fuel s rate from to = Some (samples s from q (steps 0 to q)).
Proof.
  intros Hstep Hq Hfrom Hto Hb Hf.
  unfold Sample. rewrite Hstep. unfold Int64.add.
  rewrite wrap64_in_range.
  2:{ unfold Int64.in_range, Int64.min_signed, Int64.max_signed.
      change (2 ^ 53) with 9007199254740992 in Hb.
      change (2 ^ 63) with 9223372036854775808. lia. }
  assert (E : steps from (from + to) q = steps 0 to q).
  { unfold steps. f_equal. f_equal. lia. }
  rewrite (Sample_loop_exact s q (from + to) Hq) with (n := steps 0 to q);
    [reflexivity | lia | lia | lia | exact E | exact Hf].
Qed.

Section Divisors.

Variable p : Z.
Hypothesis p_gt_1 : 1 < p.
Hypothesis p_prime : forall g, 0 <= g -> (g | p) -> g = 1 \/ g = p.

Lemma coprime_or_multiple (d : Z) : Z.gcd d p = 1 \/ (p | d).
Proof.
  destruct (p_prime (Z.gcd d p)) as [H | H].
  - apply Z.gcd_nonneg.
  - apply Z.gcd_divide_r.
  - left. exact H.
  - right. rewrite <- H. apply Z.gcd_divide_l.
Qed.

(** A divisor of [p^k * m] is a power of [p] times a divisor of [m]. *)
Lemma divisor_split (k : nat) (m d : Z) :
  0 < d -> (d | p ^ Z.of_nat k * m) ->
  exists (j : nat) (d' : Z),
    (j <= k)%nat /\ 0 < d' /\ d = p ^ Z.of_nat j * d' /\ (d' | m).
Proof.
  revert d. induction k as [| k IH]; intros d Hd Hdiv.
  - change (Z.of_nat 0) with 0 in Hdiv. rewrite Z.pow_0_r, Z.mul_1_l in Hdiv.
    exists 0%nat, d. change (Z.of_nat 0) with 0. rewrite Z.pow_0_r.
    repeat split; try lia. exact Hdiv.
  - rewrite Nat2Z.inj_succ, Z.pow_succ_r, <- Z.mul_assoc in Hdiv by lia.
    destruct (coprime_or_multiple d) as [Hco | [e He]].
    + apply Z.gauss in Hdiv; [| exact Hco].
      destruct (IH d Hd Hdiv) as (j & d' & Hj & Hd' & Hdd & Hm).
      exists j, d'. repeat split; try assumption. lia.
    + subst d. assert (0 < e) by nia.
      rewrite (Z.mul_comm e p) in Hdiv.
      apply Z.mul_divide_cancel_l in Hdiv; [| lia].
      destruct (IH e H Hdiv) as (j & d' & Hj & Hd' & Hdd & Hm).
      exists (S j), d'. repeat split; try assumption; try lia.
      rewrite Nat2Z.inj_succ, Z.pow_succ_r by lia. rewrite Hdd. ring.
Qed.

End Divisors.

Lemma divisors_of_2 (g : Z) : 0 <= g -> (g | 2) -> g = 1 \/ g = 2.
Proof.
  intros Hg Hdiv.
  assert (g <= 2) by (apply Z.divide_pos_le; [lia | exact Hdiv]).
  destruct Hdiv as [k Hk].
  assert (g = 0 \/ g = 1 \/ g = 2) as [-> | [-> | ->]] by lia; lia.
Qed.

Lemma divisors_of_5 (g : Z) : 0 <= g -> (g | 5) -> g = 1 \/ g = 5.
Proof.
  intros Hg Hdiv.
  assert (g <= 5) by (apply Z.divide_pos_le; [lia | exact Hdiv]).
  destruct Hdiv as [k Hk].
  assert (g = 0 \/ g = 1 \/ g = 2 \/ g = 3 \/ g = 4 \/ g = 5)
    as [-> | [-> | [-> | [-> | [-> | ->]]]]] by lia; lia.
Qed.

Lemma divisors_of_Second (rate : Z) :
  0 < rate -> (rate | Time.Second) ->
  exists i j : nat,
    (i <= 9)%nat /\ (j <= 9)%nat /\ rate = 2 ^ Z.of_nat i * 5 ^ Z.of_nat j.
Proof.
  intros Hr Hdiv.
  change Time.Second with (2 ^ Z.of_nat 9 * (5 ^ Z.of_nat 9 * 1)) in Hdiv.
  destruct (divisor_split 2 ltac:(lia) divisors_of_2 9 _ rate Hr Hdiv)
    as (i & d & Hi & Hd & Hrd & Hdiv').
  destruct (divisor_split 5 ltac:(lia) divisors_of_5 9 _ d Hd Hdiv')
    as (j & d' & Hj & Hd' & Hdd & Hdiv'').
  apply Z.divide_1_r_nonneg in Hdiv''; [| lia].
  exists i, j. repeat split; try assumption. subst. ring.
Qed.

Lemma step_is_exact_table :
  forallb (fun i => forallb (fun j => step_is_exact (2 ^ Z.of_nat i * 5 ^ Z.of_nat j))
                      (seq 0 10)) (seq 0 10) = true.
Proof. vm_compute. reflexivity. Qed.

Lemma step_exact (rate : Z) :
  0 < rate -> (rate | Time.Second) ->
  F64.div (F64.of_int Time.Second) (F64.of_int rate)
  = F64.of_int (Time.Second / rate).
Proof.
  intros Hr Hdiv.
  destruct (divisors_of_Second rate Hr Hdiv) as (i & j & Hi & Hj & ->).
  pose proof step_is_exact_table as T.
  rewrite forallb_forall in T.
  specialize (T i ltac:(apply in_seq; lia)).
  rewrite forallb_forall in T.
  specialize (T j ltac:(apply in_seq; lia)).
  apply Z.eqb_eq. exact T.
Qed.

Lemma SFltb_irrefl (x : spec_float) : SFltb x x = false.
Proof.
  unfold SFltb. destruct x as [s | s | | s m e]; cbn [SFcompare].
  - reflexivity.
  - destruct s; reflexivity.
  - reflexivity.
  - rewrite Z.compare_refl, Pos.compare_cont_refl. destruct s; reflexivity.
Qed.

Lemma ltb_irrefl (x : float64) : F64.ltb x x = false.
Proof. apply SFltb_irrefl. Qed.

Lemma SFltb_inf_l (y : spec_float) : SFltb (S754_infinity false) y = false.
Proof. unfold SFltb. destruct y as [s | s | | s m e]; try destruct s; reflexivity. Qed.

Lemma add_of_int_inf (a : Z) :
  0 <= a < 2 ^ 53 -> F64.add (F64.of_int a) F64.inf = F64.inf.
Proof.
  intros Ha. unfold F64.add. rewrite SF_of_int by assumption.
  change (F64.SF F64.inf) with (S754_infinity false).
  unfold sf_int. destruct (a =? 0); reflexivity.
Qed.

Lemma Sample_deterministic (s : Signal) (rate from to : Z) (n m : nat)
    (r1 r2 : list float64) :
  Sample n s rate from to = Some r1 -> Sample m s rate from to = Some r2 -> r1 = r2.
Proof. unfold Sample. apply Sample_loop_deterministic. Qed.

Lemma Sample_zero_duration_aux (s : Signal) (rate from : Z) (fuel : nat) :
  Int64.in_range from -> Sample (S fuel) s rate from 0 = Some [].
Proof.
  intros Hfrom. unfold Sample, Int64.add.
  rewrite Z.add_0_r, wrap64_in_range by assumption.
  cbn [Sample_loop]. rewrite ltb_irrefl. reflexivity.
Qed.

Lemma Sample_rate_zero_aux (s : Signal) (from to : Z) (fuel : nat) :
  0 <= from -> 0 < to -> from + to < 2 ^ 53 ->
  Sample (S (S fuel)) s 0 from to = Some [s from].
Proof.
  intros Hfrom Hto Hb. unfold Sample, Int64.add.
  rewrite wrap64_in_range.
  2:{ unfold Int64.in_range, Int64.min_signed, Int64.max_signed.
      change (2 ^ 53) with 9007199254740992 in Hb.
      change (2 ^ 63) with 9223372036854775808. lia. }
  change (F64.div (F64.of_int Time.Second) (F64.of_int 0)) with F64.inf.
  cbn [Sample_loop].
  rewrite ltb_of_int by lia.
  replace (from <? from + to) with true by (symmetry; apply Z.ltb_lt; lia).
  rewrite to_int64_of_int, add_of_int_inf by lia.
  unfold F64.ltb at 1. change (F64.SF F64.inf) with (S754_infinity false).
  rewrite SFltb_inf_l. reflexivity.
Qed.

Lemma Sample_loop_stuck (s : Signal) (step hi i : float64) :
  F64.ltb i hi = true -> F64.add i step = i ->
  forall (fuel : nat) (acc : list float64), Sample_loop fuel s step hi i acc = None.
Proof.
  intros Hlt Hadd. induction fuel as [| fuel IH]; intro acc; cbn [Sample_loop].
  - reflexivity.
  - rewrite Hlt, Hadd. apply IH.
Qed.

Lemma samples_length (s : Signal) (c q : Z) (n : nat) : length (samples s c q n) = n.
Proof. unfold samples. rewrite length_map, length_seq. reflexivity. Qed.

Lemma steps_ceil (rate to : Z) :
  0 < rate -> (rate | Time.Second) -> 0 <= to ->
  Z.of_nat (steps 0 to (Time.Second / rate))
  = (to * rate + Time.Second - 1) / Time.Second.
Proof.
  intros Hr Hdiv Hto.
  set (q := Time.Second / rate).
  assert (Hq : Time.Second = rate * q).
  { unfold q. apply Z.div_exact; [lia|]. apply Z.mod_divide; [lia | exact Hdiv]. }
  assert (Hqp : 0 < q) by (unfold Time.Second in Hq; nia).
  unfold steps. replace (to - 0 + q - 1) with (to + q - 1) by lia.
  set (N := (to + q - 1) / q).
  assert (HN : q * N <= to + q - 1 < q * N + q).
  { unfold N. pose proof (Z.mul_div_le (to + q - 1) q Hqp).
    pose proof (Z.mul_succ_div_gt (to + q - 1) q Hqp). lia. }
  assert (0 <= N) by (unfold N; apply Z.div_pos; lia).
  rewrite Z2Nat.id by assumption.
  rewrite Hq.
  apply Z.div_unique with (r := to * rate + rate * q - 1 - rate * q * N); nia.
Qed.

Lemma Sample_exact_rate (s : Signal) (rate from to : Z) :
  0 < rate -> (rate | Time.Second) -> 0 <= from -> 0 <= to ->
  from + to + Time.Second / rate < 2 ^ 53 ->
  Sample (S (steps 0 to (Time.Second / rate))) s rate from to
  = Some (samples s from (Time.Second / rate) (steps 0 to (Time.Second / rate))).
Proof.
  intros Hr Hdiv Hfrom Hto Hb.
  apply Sample_exact; try assumption; try lia.
  - apply step_exact; assumption.
  - destruct Hdiv as [k Hk]. rewrite Hk, Z.div_mul by lia.
    unfold Time.Second in Hk. nia.
Qed.

(** ** Counting the frames by computation *)

Lemma sf_valid_decoded (x : spec_float) : sf_valid x = true -> decoded x.
Proof.
  destruct x as [s | s | | s m e]; cbn [sf_valid]; intros H; try constructor.
  - apply andb_prop in H. destruct H as [H H3].
    apply andb_prop in H. destruct H as [H1 H2].
    apply Z.eqb_eq in H1. apply Z.leb_le in H2, H3.
    pose proof (digits2_pos_bounds m) as Hb. rewrite H1 in Hb.
    exact Hb.
  - apply andb_prop in H. destruct H as [H H3].
    apply andb_prop in H. destruct H as [H1 H2].
    apply Z.leb_le in H2, H3. lia.
Qed.

Lemma count_run_iter (step hi : spec_float) (p : nat) (st : count_state) :
  count_run p step hi st = Nat.iter (2 ^ p) (count_step step hi) st.
Proof.
  revert st. induction p as [| p IH]; intro st.
  - reflexivity.
  - cbn [count_run]. rewrite !IH.
    replace (2 ^ S p)%nat with (2 ^ p + 2 ^ p)%nat by (cbn [Nat.pow]; lia).
    rewrite Nat.iter_add. reflexivity.
Qed.

Lemma count_step_done (step hi : spec_float) (k : nat) (n : Z) :
  Nat.iter k (count_step step hi) (Done n) = Done n.
Proof. induction k as [| k IH]; [reflexivity|]. rewrite Nat.iter_succ, IH. reflexivity. Qed.

Lemma count_step_invalid (step hi : spec_float) (k : nat) :
  Nat.iter k (count_step step hi) Invalid = Invalid.
Proof. induction k as [| k IH]; [reflexivity|]. rewrite Nat.iter_succ, IH. reflexivity. Qed.

Lemma count_iter_sound (s : Signal) (step hi : spec_float) :
  decoded step -> decoded hi ->
  forall (k : nat) (i : spec_float) (n N : Z) (acc : list float64),
  decoded i -> Nat.iter k (count_step step hi) (Running i n) = Done N ->
  exists r, Sample_loop k s (F64.F64 step) (F64.F64 hi) (F64.F64 i) acc = Some r /\
            Z.of_nat (length r) + n = Z.of_nat (length acc) + N.
Proof.
  intros Hstep Hhi.
  induction k as [| k IH]; intros i n N acc Hi H.
  - discriminate H.
  - rewrite Nat.iter_succ_r in H. cbn [count_step] in H.
    cbn [Sample_loop]. unfold F64.ltb, F64.add.
    rewrite !SF_F64_decoded by assumption.
    destruct (SFltb i hi).
    + destruct (sf_valid (SFadd F64.prec F64.emax i step)) eqn:Hv.
      * destruct (IH _ _ _ (acc ++ [s (F64.to_int64 (F64.F64 i))])
                    (sf_valid_decoded _ Hv) H) as (r & Hr & Hlen).
        exists r. split; [exact Hr|].
        rewrite length_app in Hlen. cbn [length] in Hlen. lia.
      * rewrite count_step_invalid in H. discriminate H.
    + rewrite count_step_done in H. injection H as <-.
      exists acc. split; [reflexivity | lia].
Qed.

(** ** Properties of the generators *)

Lemma Seconds_zero_two_Pi :
  F64.mul (F64.mul (Time.Seconds 0) F64.two) Math.Pi = F64.zero.
Proof. vm_compute. reflexivity. Qed.

Lemma mul_zero_finite (v : float64) :
  F64.is_finite v = true ->
  F64.mul F64.zero v = F64.with_sign (F64.sign_of v) 0.
Proof.
  unfold F64.is_finite, F64.mul. intros Hfin.
  change (F64.SF F64.zero) with (S754_zero false).
  unfold F64.SF.
  destruct (F64.exp_of v =? F64.exp_inf); [discriminate|].
  destruct (F64.exp_of v =? 0); [destruct (F64.mant_of v =? 0)|]; reflexivity.
Qed.

Lemma Sin_signed_zero (kernel : float64 -> float64) (s : bool) :
  Math.Sin kernel (F64.with_sign s 0) = F64.with_sign s 0.
Proof. destruct s; reflexivity. Qed.

Lemma Sine_at_zero_inf (kernel : float64 -> float64) :
  F64.is_nan (Sine kernel (Constant F64.inf) 0) = true.
Proof. reflexivity. Qed.

(** Whole seconds are converted exactly. *)
Lemma Seconds_whole (k : Z) :
  0 <= k < 2 ^ 33 -> Time.Seconds (k * Time.Second) = F64.of_int k.
Proof.
  intros Hk. unfold Time.Seconds, Int64.div, Int64.rem.
  rewrite Z.quot_mul, Z.rem_mul by (unfold Time.Second; lia).
  rewrite wrap64_in_range.
  2:{ unfold Int64.in_range, Int64.min_signed, Int64.max_signed.
      change (2 ^ 33) with 8589934592 in Hk.
      change (2 ^ 63) with 9223372036854775808. lia. }
  change (F64.div (F64.of_int 0) (F64.of_int 1000000000)) with (F64.of_int 0).
  change (2 ^ 33) with 8589934592 in Hk.
  rewrite add_of_int; [f_equal; lia | lia | lia |].
  change (2 ^ 53) with 9007199254740992. lia.
Qed.

(** C7: for every [float64] value [v], NaN and the infinities included,
    and every time offset [t], the signal [Constant v] evaluated at [t] is
    [v], bit for bit. *)
Theorem Constant_value (v : float64) (t : Time.Duration) :
  Constant v t = v /\ Math.Float64bits (Constant v t) = Math.Float64bits v.
Proof. split; reflexivity. Qed.

(** C5: for every frequency signal [freq] and every time offset [t],
    [Sine freq] evaluated at [t] is the sine of [2π * t_seconds * freq t],
    where [t_seconds] is [t] in fractional seconds and the products are
    those of [float64]. *)
Theorem Sine_formula (kernel : float64 -> float64) (freq : Signal)
    (t : Time.Duration) :
  Sine kernel freq t
  = Math.Sin kernel (F64.mul (F64.mul two_pi (Time.Seconds t)) (freq t)).
Proof. unfold Sine. rewrite mul_two_Pi. reflexivity. Qed.

(** C6, as the specification states it, fails: with the frequency [+Inf]
    the argument of the sine at [t = 0] is [0 * Inf], a NaN, and so is the
    result, whatever the polynomial part of [math.Sin] computes. *)
Lemma Sine_at_zero_counterexample :
  ~ (exists kernel : float64 -> float64,
       F64.eqb (Sine kernel (Constant F64.inf) 0) F64.zero = true).
Proof. intros [kernel H]. vm_compute in H. discriminate H. Qed.

(** C6, amended: for every frequency signal whose value at [0] is finite,
    [Sine freq] evaluated at [t = 0] is a zero: it compares equal to [0],
    and it is [+0] or [-0] as the sign of [freq 0]. *)
Theorem Sine_at_zero_finite (kernel : float64 -> float64) (freq : Signal) :
  F64.is_finite (freq 0) = true ->
  F64.eqb (Sine kernel freq 0) F64.zero = true /\
  Sine kernel freq 0 = F64.with_sign (F64.sign_of (freq 0)) 0.
Proof.
  intros Hfin.
  assert (E : Sine kernel freq 0 = F64.with_sign (F64.sign_of (freq 0)) 0).
  { unfold Sine. rewrite Seconds_zero_two_Pi, mul_zero_finite by assumption.
    apply Sin_signed_zero. }
  split; [| exact E]. rewrite E. destruct (F64.sign_of (freq 0)); reflexivity.
Qed.

Lemma Sine_at_zero_finite_witness :
  F64.eqb (Sine (fun x => x) (Constant (F64.of_int 440)) 0) F64.zero = true /\
  Sine (fun x => x) (Constant (F64.of_int 440)) 0
  = F64.with_sign (F64.sign_of (Constant (F64.of_int 440) 0)) 0.
Proof.
  apply (Sine_at_zero_finite (fun x => x) (Constant (F64.of_int 440))).
  vm_compute. reflexivity.
Defined.

(** ** Properties of the encoder *)

(** C2: for every sequence of frames, whatever their bit patterns,
    [EncodePCM] returns the concatenation, in the order of the input, of
    the eight big-endian bytes of each frame's bit pattern, and nothing
    else: its length is eight times the number of frames. *)
Theorem EncodePCM_layout (frames : list float64) :
  EncodePCM frames = concat (map (fun f => big_endian 8 (Math.Float64bits f)) frames) /\
  length (EncodePCM frames) = (8 * length frames)%nat /\
  Forall is_byte (EncodePCM frames).
Proof.
  rewrite EncodePCM_concat. unfold Math.Float64bits.
  split; [reflexivity|]. split.
  - induction frames as [| f frames IH]; [reflexivity|].
    cbn [map concat]. rewrite length_app, big_endian_length, IH. cbn [length]. lia.
  - induction frames as [| f frames IH]; [constructor|].
    cbn [map concat]. apply Forall_app. split; [apply big_endian_bytes | exact IH].
Qed.

(** C3: [DecodePCM], which cuts the buffer into groups of eight bytes and
    reads each as a big-endian bit pattern, inverts [EncodePCM]: for every
    sequence [F] of [float64] bit patterns, [DecodePCM (EncodePCM F) = F]. *)
Theorem DecodePCM_EncodePCM_roundtrip (F : list float64) :
  Forall is_float64 F -> DecodePCM (EncodePCM F) = F.
Proof. apply DecodePCM_EncodePCM. Qed.

Lemma DecodePCM_EncodePCM_roundtrip_witness :
  DecodePCM (EncodePCM [F64.zero; F64.of_int 1; F64.of_int (-1); Math.NaN; F64.inf])
  = [F64.zero; F64.of_int 1; F64.of_int (-1); Math.NaN; F64.inf].
Proof.
  apply (DecodePCM_EncodePCM_roundtrip
           [F64.zero; F64.of_int 1; F64.of_int (-1); Math.NaN; F64.inf]).
  repeat constructor; vm_compute; congruence.
Defined.

(** ** Properties of the sampler *)

Lemma ceil_is_floor (x : Z) :
  (Time.Second | x) -> (x + Time.Second - 1) / Time.Second = x / Time.Second.
Proof.
  intros [k ->]. unfold Time.Second.
  rewrite Z.div_mul by lia.
  symmetry. apply Z.div_unique with (r := 1000000000 - 1); lia.
Qed.

Lemma steps_positive (to q : Z) : 0 < q -> 0 < to -> exists n, steps 0 to q = S n.
Proof.
  intros Hq Hto. exists (steps (0 + q) to q). apply steps_next; assumption.
Qed.

(** The scenario of the specification: ten frames per second for one
    second of a constant signal give ten frames, encoded in eighty bytes. *)
Example Sample_constant_ten :
  Sample 11 (Constant 0x3FE0000000000000) 10 0 Time.Second
  = Some (repeat 0x3FE0000000000000 10) /\
  EncodePCM (repeat 0x3FE0000000000000 10)
  = concat (repeat [0x3F; 0xE0; 0; 0; 0; 0; 0; 0] 10).
Proof. split; vm_compute; reflexivity. Qed.

(** The count is a ceiling: one frame per second, sampled for one
    nanosecond, still gives the frame at the start. *)
Example Sample_one_nanosecond :
  Sample 2 (Constant F64.two) 1 0 Time.Nanosecond = Some [F64.two].
Proof. vm_compute. reflexivity. Qed.

(** The program's own call: five seconds at 44100 frames per second give
    220501 frames, one more than [5 * 44100]. *)
Lemma main_frame_count (s : Signal) :
  exists frames : list float64,
    returns s 44100 0 (5 * Time.Second) frames /\
    Z.of_nat (length frames) = 220501.
Proof.
  set (step := SFdiv F64.prec F64.emax (F64.SF (F64.of_int Time.Second))
                 (F64.SF (F64.of_int 44100))).
  set (hi := binary_normalize F64.prec F64.emax (Int64.add 0 (5 * Time.Second)) 0 false).
  assert (Hc : count_run 18 step hi (Running (S754_zero false) 0) = Done 220501).
  { vm_compute. reflexivity. }
  rewrite count_run_iter in Hc.
  destruct (count_iter_sound s step hi
              ltac:(apply sf_valid_decoded; vm_compute; reflexivity)
              ltac:(apply sf_valid_decoded; vm_compute; reflexivity)
              _ _ _ _ [] (dec_zero false) Hc) as (r & Hr & Hlen).
  exists r. split; [| cbn [length] in Hlen; lia].
  exists (2 ^ 18)%nat. exact Hr.
Qed.

(** C8: for every signal, every rate and every starting offset [from] of
    an [int64], [Sample] with duration zero returns the empty sequence,
    as soon as it has fuel for one test of the loop bound. *)
Theorem Sample_zero_duration (s : Signal) (rate : Z) (from : Time.Duration)
    (fuel : nat) :
  Int64.in_range from -> Sample (S fuel) s rate from 0 = Some [].
Proof. apply Sample_zero_duration_aux. Qed.

Lemma Sample_zero_duration_witness :
  Sample 1 (Constant F64.two) 44100 Time.Second 0 = Some [].
Proof.
  apply (Sample_zero_duration (Constant F64.two) 44100 Time.Second 0).
  unfold Int64.in_range, Int64.min_signed, Int64.max_signed, Time.Second.
  split; vm_compute; congruence.
Defined.





(** The condition on the signal is the one thing the frames hang on: a
    procedure that counts its calls gives other frames at the second
    invocation. *)
Lemma Sample_run_ticking :
  Sample_run 5 ticking 4 0 Time.Second 0
  = Some ([F64.of_int 0; F64.of_int 1; F64.of_int 2; F64.of_int 3], 4) /\
  Sample_run 5 ticking 4 0 Time.Second 4
  = Some ([F64.of_int 4; F64.of_int 5; F64.of_int 6; F64.of_int 7], 8) /\
  F64.of_int 0 <> F64.of_int 4.
Proof. repeat split; vm_compute; congruence. Qed.

(** C4, as the specification states it, fails: [Sample] does not check
    its rate.  With rate [0] the step is [+Inf]; the call returns, and its
    one frame is the signal evaluated at offset [0]. *)
Lemma Sample_rate_zero_counterexample :
  returns (Constant F64.two) 0 0 Time.Second [Constant F64.two 0].
Proof. exists 2%nat. vm_compute. reflexivity. Qed.

(** C4, amended: [Sample] rejects no rate.  With rate [0], a start
    [from >= 0] and a duration [to > 0] that end before [2^53] nanoseconds,
    it returns exactly one frame, the signal evaluated at [from]. *)
Theorem Sample_rate_zero (s : Signal) (from to : Time.Duration) :
  0 <= from -> 0 < to -> from + to < 2 ^ 53 ->
  returns s 0 from to [s from].
Proof.
  intros Hfrom Hto Hb. exists 2%nat. apply Sample_rate_zero_aux; assumption.
Qed.

Lemma Sample_rate_zero_witness :
  returns (Constant F64.two) 0 Time.Second Time.Second [Constant F64.two Time.Second].
Proof.
  apply (Sample_rate_zero (Constant F64.two) Time.Second Time.Second);
    vm_compute; congruence.
Defined.

(** C1, as the specification states it, fails: at 6 frames per second,
    one second from offset 0 gives 7 frames and not [floor (1 * 6) = 6],
    because the cursor, advanced by repeated addition of the rounded step,
    is still below one second after six additions. *)
Lemma Sample_frame_count_counterexample :
  ~ (exists frames : list float64,
       returns (Constant F64.zero) 6 0 Time.Second frames /\
       Z.of_nat (length frames) = Time.Second * 6 / Time.Second).
Proof.
  intros (frames & Hret & Hlen).
  assert (H7 : returns (Constant F64.zero) 6 0 Time.Second (repeat F64.zero 7)).
  { exists 8%nat. vm_compute. reflexivity. }
  destruct Hret as [n Hn]. destruct H7 as [m Hm].
  rewrite (Sample_deterministic _ _ _ _ _ _ _ _ Hn Hm) in Hlen.
  vm_compute in Hlen. discriminate Hlen.
Qed.

(** C1, amended: when the rate is positive and divides [10^9], so that
    the step is a whole number of nanoseconds, and [from >= 0], [to >= 0]
    and [from + to + step < 2^53], [Sample] returns exactly
    [ceil (to * rate / 10^9)] frames, the signal at [from + k * step];
    this is [floor (to * rate / 10^9)] when that quotient is whole. *)
Theorem Sample_frame_count_exact (s : Signal) (rate : Z) (from to : Time.Duration) :
  0 < rate -> (rate | Time.Second) -> 0 <= from -> 0 <= to ->
  from + to + Time.Second / rate < 2 ^ 53 ->
  exists frames : list float64,
    returns s rate from to frames /\
    frames = samples s from (Time.Second / rate) (length frames) /\
    Z.of_nat (length frames) = (to * rate + Time.Second - 1) / Time.Second /\
    ((Time.Second | to * rate) ->
     Z.of_nat (length frames) = to * rate / Time.Second).
Proof.
  intros Hr Hdiv Hfrom Hto Hb.
  set (q := Time.Second / rate).
  exists (samples s from q (steps 0 to q)).
  assert (Hlen : Z.of_nat (length (samples s from q (steps 0 to q)))
                 = (to * rate + Time.Second - 1) / Time.Second).
  { rewrite samples_length. apply steps_ceil; assumption. }
  split; [| split; [| split]].
  - exists (S (steps 0 to q)). apply Sample_exact_rate; assumption.
  - rewrite samples_length. reflexivity.
  - exact Hlen.
  - intros Hwhole. rewrite Hlen. apply ceil_is_floor. exact Hwhole.
Qed.

Lemma Sample_frame_count_exact_witness :
  exists frames : list float64,
    returns (Constant F64.two) 10 0 Time.Second frames /\
    frames = samples (Constant F64.two) 0 (Time.Second / 10) (length frames) /\
    Z.of_nat (length frames) = (Time.Second * 10 + Time.Second - 1) / Time.Second /\
    ((Time.Second | Time.Second * 10) ->
     Z.of_nat (length frames) = Time.Second * 10 / Time.Second).
Proof.
  apply (Sample_frame_count_exact (Constant F64.two) 10 0 Time.Second).
  - reflexivity.
  - exists 100000000. reflexivity.
  - discriminate.
  - discriminate.
  - reflexivity.
Defined.

(** Whatever the rate, a call that returns has kept what was appended. *)
Lemma Sample_loop_prefix (s : Signal) (step hi : float64) (fuel : nat) :
  forall (i : float64) (acc r : list float64),
  Sample_loop fuel s step hi i acc = Some r -> exists rest, r = acc ++ rest.
Proof.
  induction fuel as [| fuel IH]; intros i acc r H; cbn [Sample_loop] in H.
  - discriminate H.
  - destruct (F64.ltb i hi).
    + destruct (IH _ _ _ H) as [rest ->].
      exists (s (F64.to_int64 i) :: rest). rewrite <- app_assoc. reflexivity.
    + injection H as <-. exists []. rewrite app_nil_r. reflexivity.
Qed.

(** Whatever the rate, when the window is not empty and ends before
    [2^53] nanoseconds, a call that returns gives the signal at [from] as
    its first frame. *)
Lemma Sample_first_frame (s : Signal) (rate : Z) (from to : Time.Duration)
    (frames : list float64) :
  0 <= from -> 0 < to -> from + to < 2 ^ 53 ->
  returns s rate from to frames -> exists rest, frames = s from :: rest.
Proof.
  intros Hfrom Hto Hb [fuel H]. unfold Sample, Int64.add in H.
  rewrite wrap64_in_range in H.
  2:{ unfold Int64.in_range, Int64.min_signed, Int64.max_signed.
      change (2 ^ 53) with 9007199254740992 in Hb.
      change (2 ^ 63) with 9223372036854775808. lia. }
  destruct fuel as [| fuel]; [discriminate H|]. cbn [Sample_loop] in H.
  rewrite ltb_of_int in H by lia.
  replace (from <? from + to) with true in H by (symmetry; apply Z.ltb_lt; lia).
  rewrite to_int64_of_int in H by lia.
  destruct (Sample_loop_prefix _ _ _ _ _ _ _ H) as [rest ->].
  exists rest. reflexivity.
Qed.

(** C10, as stated, fails: at [10^9] frames per second the step is one
    nanosecond, and from offset [2^53] the sum [2^53 + 1] rounds back to
    [2^53]: the cursor never moves and the loop never ends. *)
Lemma Sample_termination_counterexample :
  ~ (exists frames : list float64,
       returns (Constant F64.zero) 1000000000 (2 ^ 53) 2 frames).
Proof.
  intros (frames & fuel & H). unfold Sample in H.
  rewrite Sample_loop_stuck in H; [discriminate H | |]; vm_compute; reflexivity.
Qed.

(** ** Every operation gives a float that a bit pattern holds *)

Lemma Zdigits2_bounds (m : Z) :
  0 < m -> 2 ^ (Zdigits2 m - 1) <= m < 2 ^ Zdigits2 m.
Proof.
  destruct m as [| p | p]; try lia. intros _. apply digits2_pos_bounds.
Qed.

Lemma Zdigits2_nonneg (m : Z) : 0 <= Zdigits2 m.
Proof. destruct m; cbn; lia. Qed.

Lemma Zdigits2_le (m k : Z) : 0 <= k -> 0 <= m < 2 ^ k -> Zdigits2 m <= k.
Proof.
  intros Hk [H0 H1]. destruct m as [| p | p]; try lia.
  - cbn. lia.
  - apply digits2_pos_le; assumption.
Qed.

Lemma Zdigits2_unique (m d : Z) : 2 ^ (d - 1) <= m < 2 ^ d -> 0 < m -> Zdigits2 m = d.
Proof.
  intros H Hm. destruct m as [| p | p]; try lia.
  apply digits2_pos_unique. exact H.
Qed.

Lemma shr_record_of_loc_m (m : Z) (l : location) : shr_m (shr_record_of_loc m l) = m.
Proof. destruct l as [| [ | | ]]; reflexivity. Qed.

(** Shifting right by [n >= 0] places divides the mantissa by [2^n]. *)
Lemma shr_m_div (mrs : shr_record) (e n : Z) :
  0 <= shr_m mrs -> 0 <= n ->
  shr_m (fst (shr mrs e n)) = shr_m mrs / 2 ^ n /\ snd (shr mrs e n) = e + n.
Proof.
  intros Hm Hn. destruct n as [| k | k]; try lia; cbn [shr fst snd].
  - rewrite Z.pow_0_r, Z.div_1_r. split; [reflexivity | lia].
  - split; [apply shr_iter_m; assumption | reflexivity].
Qed.

Lemma round_nearest_even_cases (m : Z) (l : location) :
  round_nearest_even m l = m \/ round_nearest_even m l = m + 1.
Proof.
  destruct l as [| [ | | ]]; cbn [round_nearest_even]; auto.
  destruct (Z.even m); auto.
Qed.

Lemma fexp_mono (a b : Z) :
  a <= b -> fexp F64.prec F64.emax a <= fexp F64.prec F64.emax b.
Proof. unfold fexp, emin, F64.prec, F64.emax. lia. Qed.

Lemma fexp_eq (a : Z) : fexp F64.prec F64.emax a = Z.max (a - 53) (-1074).
Proof. reflexivity. Qed.

(** The last stage of rounding: a mantissa [m <= 2^53] that is at least
    [2^52] unless the exponent is the smallest one. *)
Lemma round_last_stage (s : bool) (m f : Z) :
  0 <= m <= 2 ^ 53 -> -1074 <= f -> (f = -1074 \/ 2 ^ 52 <= m) ->
  let '(mrs, e) := shr_fexp F64.prec F64.emax m f loc_Exact in
  let x := match shr_m mrs with
           | Z0 => S754_zero s
           | Z.pos p => if e <=? F64.emax - F64.prec then S754_finite s p e
                        else S754_infinity s
           | Z.neg _ => S754_nan
           end in
  decoded x /\ signed s x /\ (f < 971 -> exp_le (f + 1) x) /\
  (2 ^ 52 <= m -> x <> S754_zero s).
Proof.
  intros Hm Hf Hcan.
  unfold shr_fexp. cbn [shr_record_of_loc].
  destruct (Z.eq_dec m 0) as [-> | Hm0].
  - (* zero *)
    cbn [Zdigits2]. rewrite fexp_eq.
    assert (Hz : decoded (S754_zero s) /\ signed s (S754_zero s) /\
                 (f < 971 -> exp_le (f + 1) (S754_zero s)) /\
                 (2 ^ 52 <= 0 -> S754_zero s <> S754_zero s)).
    { split; [constructor | split; [constructor | split]].
      - intros _. exact I.
      - change (2 ^ 52) with 4503599627370496. lia. }
    destruct (Z.max (0 + f - 53) (-1074) - f) as [| k | k] eqn:Hk; try lia;
      cbn [shr shr_m]; exact Hz.
  - destruct (Z.eq_dec m (2 ^ 53)) as [-> | Hm53].
    + (* the mantissa has 54 digits: one more shift *)
      change (Zdigits2 (2 ^ 53)) with 54. rewrite fexp_eq.
      replace (Z.max (54 + f - 53) (-1074) - f) with 1 by lia.
      cbn [shr shr_m iter_pos]. change (2 ^ 53) with (Z.pos 9007199254740992).
      cbn [shr_1 shr_m].
      unfold F64.emax, F64.prec.
      destruct (Z.leb_spec (f + 1) (1024 - 53)).
      * split; [| split; [| split]].
        -- apply dec_normal; [| lia].
           change (2 ^ 52) with 4503599627370496.
           change (2 ^ 53) with 9007199254740992. lia.
        -- constructor.
        -- intros _. cbn [exp_le]. lia.
        -- discriminate.
      * split; [| split; [| split]].
        -- constructor.
        -- constructor.
        -- intros. lia.
        -- discriminate.
    + assert (Hd : Zdigits2 m <= 53) by (apply Zdigits2_le; lia).
      assert (Hd1 : 2 ^ 52 <= m -> Zdigits2 m = 53).
      { intro H. apply Zdigits2_unique; [| lia]. change (53 - 1) with 52. lia. }
      pose proof (Zdigits2_nonneg m) as Hd0.
      rewrite fexp_eq.
      assert (E0 : Z.max (Zdigits2 m + f - 53) (-1074) - f = 0).
      { destruct Hcan as [-> | H]; [lia | rewrite (Hd1 H); lia]. }
      rewrite E0. cbn [shr shr_m].
      destruct m as [| p | p]; try lia.
      unfold F64.emax, F64.prec.
      destruct (Z.leb_spec f (1024 - 53)).
      * split; [| split; [| split]].
        -- destruct (Z_lt_ge_dec (Z.pos p) (2 ^ 52)) as [Hlt | Hge].
           ++ destruct Hcan as [-> | H']; [| lia]. apply dec_subnormal. exact Hlt.
           ++ apply dec_normal; lia.
        -- constructor.
        -- intros _. cbn [exp_le]. lia.
        -- discriminate.
      * split; [| split; [| split]].
        -- constructor.
        -- constructor.
        -- intros. lia.
        -- discriminate.
Qed.

(** Rounding a mantissa [m >= 0] with exponent [e], when [e] is not above
    the exponent [fexp] asks for, gives a float that a bit pattern can
    hold, of the sign asked for, whose exponent is at most one above
    [fexp]'s, and which is not a zero when [m * 2^e] is in the normal
    range. *)
Lemma binary_round_aux_decoded (s : bool) (m e : Z) (l : location) :
  0 <= m -> e <= fexp F64.prec F64.emax (Zdigits2 m + e) ->
  let f := fexp F64.prec F64.emax (Zdigits2 m + e) in
  let x := binary_round_aux F64.prec F64.emax s m e l in
  decoded x /\ signed s x /\ (f < 971 -> exp_le (f + 1) x) /\
  (0 < m -> -1074 < Zdigits2 m + e - 53 -> x <> S754_zero s).
Proof.
  intros Hm He f x. subst x. unfold binary_round_aux.
  pose proof (shr_m_div (shr_record_of_loc m l) e (f - e)) as Hshr.
  rewrite shr_record_of_loc_m in Hshr. specialize (Hshr Hm ltac:(lia)).
  change (shr (shr_record_of_loc m l) e (f - e))
    with (shr_fexp F64.prec F64.emax m e l) in Hshr.
  destruct (shr_fexp F64.prec F64.emax m e l) as [mrs1 e1].
  cbn [fst snd] in Hshr. destruct Hshr as [Hm1 He1].
  replace (e + (f - e)) with f in He1 by lia. subst e1.
  set (n := f - e) in *.
  assert (Hn : 0 <= n) by (unfold n; lia).
  assert (Hp : 0 < 2 ^ n) by (apply Z.pow_pos_nonneg; lia).
  assert (Hf : f = Z.max (Zdigits2 m + e - 53) (-1074)) by reflexivity.
  assert (B1 : 0 <= shr_m mrs1 < 2 ^ 53).
  { rewrite Hm1. split; [apply Z.div_pos; lia|].
    apply Z.div_lt_upper_bound; [lia|].
    destruct (Z.eq_dec m 0) as [-> | Hm0].
    - assert (0 < 2 ^ 53) by (apply Z.pow_pos_nonneg; lia). nia.
    - destruct (Zdigits2_bounds m ltac:(lia)) as [_ Hhi].
      rewrite <- pow2_split by lia.
      eapply Z.lt_le_trans; [exact Hhi|].
      apply Z.pow_le_mono_r; lia. }
  assert (B2 : 0 < m -> -1074 < Zdigits2 m + e - 53 -> 2 ^ 52 <= shr_m mrs1).
  { intros Hm0 Hbig. rewrite Hm1.
    apply Z.div_le_lower_bound; [lia|].
    destruct (Zdigits2_bounds m Hm0) as [Hlo _].
    rewrite <- pow2_split by lia.
    eapply Z.le_trans; [| exact Hlo].
    apply Z.pow_le_mono_r; lia. }
  assert (B3 : f = -1074 \/ 2 ^ 52 <= shr_m mrs1).
  { destruct (Z_le_gt_dec (Zdigits2 m + e - 53) (-1074)); [left; lia | right].
    destruct (Z.eq_dec m 0) as [-> | Hm0]; [cbn in *; lia|].
    apply B2; lia. }
  set (m2 := round_nearest_even (shr_m mrs1) (loc_of_shr_record mrs1)).
  assert (C : m2 = shr_m mrs1 \/ m2 = shr_m mrs1 + 1) by apply round_nearest_even_cases.
  pose proof (round_last_stage s m2 f) as L.
  assert (H53 : 2 ^ 53 = 9007199254740992) by reflexivity.
  assert (H52 : 2 ^ 52 = 4503599627370496) by reflexivity.
  specialize (L ltac:(lia) ltac:(lia) ltac:(lia)).
  destruct (shr_fexp F64.prec F64.emax m2 f loc_Exact) as [mrs2 e2].
  cbv zeta in L. destruct L as (L1 & L2 & L3 & L4).
  split; [exact L1 | split; [exact L2 | split; [exact L3|]]].
  intros Hm0 Hbig. apply L4. specialize (B2 Hm0 Hbig). lia.
Qed.

(** [binary_round] first brings the exponent down to what [fexp] asks
    for; its result has the same properties. *)
Lemma binary_round_decoded (s : bool) (m : positive) (e : Z) :
  let f := fexp F64.prec F64.emax (Z.pos (digits2_pos m) + e) in
  let x := binary_round F64.prec F64.emax s m e in
  decoded x /\ signed s x /\ (f < 971 -> exp_le (f + 1) x) /\
  (-1074 < Z.pos (digits2_pos m) + e - 53 -> x <> S754_zero s).
Proof.
  intros f x. subst x. unfold binary_round. fold f. unfold shl_align.
  destruct (f - e) as [| k | k] eqn:Hk.
  - pose proof (binary_round_aux_decoded s (Z.pos m) e loc_Exact ltac:(lia)) as H.
    cbn [Zdigits2] in H. fold f in H. specialize (H ltac:(lia)). cbv zeta in H.
    destruct H as (H1 & H2 & H3 & H4).
    repeat split; try assumption. intros Hb. apply H4; lia.
  - pose proof (binary_round_aux_decoded s (Z.pos m) e loc_Exact ltac:(lia)) as H.
    cbn [Zdigits2] in H. fold f in H. specialize (H ltac:(lia)). cbv zeta in H.
    destruct H as (H1 & H2 & H3 & H4).
    repeat split; try assumption. intros Hb. apply H4; lia.
  - pose proof (binary_round_aux_decoded s (Z.pos (Pos.iter xO m k)) f loc_Exact
                  ltac:(lia)) as H.
    cbn [Zdigits2] in H. rewrite digits2_pos_iter_xO in H.
    replace (Z.pos (digits2_pos m) + Z.pos k + f) with (Z.pos (digits2_pos m) + e) in H by lia.
    fold f in H. specialize (H ltac:(lia)). cbv zeta in H.
    destruct H as (H1 & H2 & H3 & H4).
    repeat split; try assumption. intros Hb. apply H4; lia.
Qed.

Lemma signed_true_nonpos (x : spec_float) : signed true x -> nonpos x.
Proof. intros []; cbn; trivial. Qed.

Lemma signed_false_nonneg (x : spec_float) : signed false x -> nonneg x.
Proof. intros []; cbn; trivial. Qed.

Lemma exp_le_mono (a b : Z) (x : spec_float) : a <= b -> exp_le a x -> exp_le b x.
Proof. destruct x; cbn; intros; try assumption; lia. Qed.

Lemma decoded_digits (s : bool) (m : positive) (e : Z) :
  decoded (S754_finite s m e) ->
  1 <= Z.pos (digits2_pos m) <= 53 /\ -1074 <= e <= 971 /\
  (Z.pos (digits2_pos m) = 53 \/ e = -1074).
Proof.
  intros H. pose proof (digits2_pos_bounds m) as Hb.
  assert (1 <= Z.pos (digits2_pos m)) by lia.
  inversion H; subst.
  - split; [| split; [lia | right; reflexivity]].
    split; [assumption|]. apply digits2_pos_le; [lia|].
    change (2 ^ 53) with (2 * 2 ^ 52). lia.
  - assert (Z.pos (digits2_pos m) = 53) by (apply digits2_pos_unique; assumption).
    lia.
Qed.

Lemma binary_normalize_decoded (z e : Z) :
  let x := binary_normalize F64.prec F64.emax z e false in
  decoded x /\
  (0 <= z -> nonneg x) /\ (z <= 0 -> nonpos x) /\
  (z <> 0 -> -1074 < Zdigits2 z + e - 53 -> nonzero x) /\
  (fexp F64.prec F64.emax (Zdigits2 z + e) < 971 ->
   exp_le (fexp F64.prec F64.emax (Zdigits2 z + e) + 1) x).
Proof.
  destruct z as [| m | m]; cbn [binary_normalize Zdigits2].
  - repeat split; try constructor; cbn; trivial. intros H; lia.
  - destruct (binary_round_decoded false m e) as (H1 & H2 & H3 & H4).
    split; [exact H1|]. split; [intros _; apply signed_false_nonneg; exact H2|].
    split; [intros H; lia|]. split; [| exact H3].
    intros _ Hb. specialize (H4 Hb).
    destruct H2; cbn; trivial. apply H4. reflexivity.
  - destruct (binary_round_decoded true m e) as (H1 & H2 & H3 & H4).
    split; [exact H1|]. split; [intros H; lia|].
    split; [intros _; apply signed_true_nonpos; exact H2|]. split; [| exact H3].
    intros _ Hb. specialize (H4 Hb).
    destruct H2; cbn; trivial. apply H4. reflexivity.
Qed.

(** Sums of floats that bit patterns hold are such floats. *)
Lemma SFadd_decoded (x y : spec_float) :
  decoded x -> decoded y -> decoded (SFadd F64.prec F64.emax x y).
Proof.
  intros Hx Hy.
  destruct x as [sx | sx | | sx mx ex]; destruct y as [sy | sy | | sy my ey];
    cbn [SFadd]; try assumption; try constructor;
    try (destruct sx, sy; assumption || constructor).
  apply binary_normalize_decoded.
Qed.

Lemma SFadd_nonpos (x y : spec_float) :
  nonpos x -> nonpos y -> nonpos (SFadd F64.prec F64.emax x y).
Proof.
  intros Hx Hy.
  destruct x as [sx | sx | | sx mx ex]; destruct y as [sy | sy | | sy my ey];
    cbn [nonpos] in Hx, Hy; subst; cbn [SFadd nonpos]; try tauto;
    try (destruct sx; cbn; trivial); try (destruct sy; cbn; trivial).
  apply binary_normalize_decoded. cbn [cond_Zopp]. lia.
Qed.

Lemma shl_align_fst (m : positive) (e e' : Z) :
  e' <= e -> Z.pos (fst (shl_align m e e')) = Z.pos m * 2 ^ (e - e').
Proof.
  intros H. unfold shl_align.
  destruct (e' - e) as [| k | k] eqn:Hk; try lia; cbn [fst].
  - replace (e - e') with 0 by lia. rewrite Z.pow_0_r. lia.
  - rewrite iter_xO_spec. do 2 f_equal. lia.
Qed.

Lemma SFadd_exp_le (b : Z) (x y : spec_float) :
  decoded x -> decoded y -> exp_le b x -> exp_le b y -> -1074 <= b < 900 ->
  exp_le (b + 2) (SFadd F64.prec F64.emax x y).
Proof.
  intros Hx Hy Bx By Hb.
  destruct x as [sx | sx | | sx mx ex]; destruct y as [sy | sy | | sy my ey];
    cbn [exp_le] in Bx, By; try contradiction; cbn [SFadd].
  - destruct sx, sy; exact I.
  - cbn [exp_le]. lia.
  - cbn [exp_le]. lia.
  - set (ez := Z.min ex ey).
    set (z := cond_Zopp sx (Z.pos (fst (shl_align mx ex ez)))
              + cond_Zopp sy (Z.pos (fst (shl_align my ey ez)))).
    destruct (decoded_digits _ _ _ Hx) as (Dx & Ex & _).
    destruct (decoded_digits _ _ _ Hy) as (Dy & Ey & _).
    destruct (binary_normalize_decoded z ez) as (_ & _ & _ & _ & H).
    assert (Hz : Zdigits2 z + ez <= 54 + b).
    { assert (Habs : Z.abs z < 2 ^ (54 + b - ez)).
      { unfold z. rewrite !shl_align_fst by (unfold ez; lia).
        assert (Z.pos mx * 2 ^ (ex - ez) < 2 ^ (53 + b - ez)).
        { replace (53 + b - ez) with (53 + (b - ex) + (ex - ez)) by lia.
          rewrite (pow2_split (53 + (b - ex))) by (unfold ez; lia).
          apply Z.mul_lt_mono_pos_r; [apply Z.pow_pos_nonneg; unfold ez; lia|].
          pose proof (digits2_pos_bounds mx).
          eapply Z.lt_le_trans; [apply H0|]. apply Z.pow_le_mono_r; lia. }
        assert (Z.pos my * 2 ^ (ey - ez) < 2 ^ (53 + b - ez)).
        { replace (53 + b - ez) with (53 + (b - ey) + (ey - ez)) by lia.
          rewrite (pow2_split (53 + (b - ey))) by (unfold ez; lia).
          apply Z.mul_lt_mono_pos_r; [apply Z.pow_pos_nonneg; unfold ez; lia|].
          pose proof (digits2_pos_bounds my).
          eapply Z.lt_le_trans; [apply H1|]. apply Z.pow_le_mono_r; lia. }
        replace (54 + b - ez) with (Z.succ (53 + b - ez)) by lia.
        rewrite Z.pow_succ_r by (unfold ez; lia).
        assert (0 < Z.pos mx * 2 ^ (ex - ez)).
        { apply Z.mul_pos_pos; [lia | apply Z.pow_pos_nonneg; unfold ez; lia]. }
        assert (0 < Z.pos my * 2 ^ (ey - ez)).
        { apply Z.mul_pos_pos; [lia | apply Z.pow_pos_nonneg; unfold ez; lia]. }
        destruct sx, sy; cbn [cond_Zopp]; lia. }
      assert (Zdigits2 (Z.abs z) <= 54 + b - ez).
      { apply Zdigits2_le; [unfold ez; lia | lia]. }
      replace (Zdigits2 z) with (Zdigits2 (Z.abs z)) by (destruct z; reflexivity).
      lia. }
    assert (Hf : fexp F64.prec F64.emax (Zdigits2 z + ez) <= b + 1).
    { unfold fexp, emin, F64.prec, F64.emax. lia. }
    eapply exp_le_mono; [| apply H]; lia.
Qed.

Lemma SFdiv_core_spec (mx my : positive) (ex ey : Z) :
  Z.pos (digits2_pos mx) <= 53 ->
  let '(q, e', l) := SFdiv_core_binary F64.prec F64.emax (Z.pos mx) ex (Z.pos my) ey in
  0 <= q /\ e' <= fexp F64.prec F64.emax (Zdigits2 q + e') /\
  Zdigits2 q + e' <= Z.pos (digits2_pos mx) + ex - ey.
Proof.
  intros Hdx. unfold SFdiv_core_binary. cbn [Zdigits2].
  set (d1 := Z.pos (digits2_pos mx)) in *.
  set (d2 := Z.pos (digits2_pos my)).
  set (e' := Z.min (fexp F64.prec F64.emax (d1 + ex - (d2 + ey))) (ex - ey)).
  set (s := ex - ey - e').
  assert (Hs : 0 <= s) by (unfold s, e'; lia).
  set (m' := match s with
             | 0 => Z.pos mx
             | Z.pos _ => Z.shiftl (Z.pos mx) s
             | Z.neg _ => 0
             end).
  assert (Hm' : m' = Z.pos mx * 2 ^ s).
  { unfold m'. destruct s as [| p | p] eqn:Es; try lia.
    apply Z.shiftl_mul_pow2. lia. }
  pose proof (Z_div_mod m' (Z.pos my) ltac:(lia)) as Hdm.
  destruct (Z.div_eucl m' (Z.pos my)) as [q r]. destruct Hdm as [Hq Hr].
  assert (Hps : 0 < 2 ^ s) by (apply Z.pow_pos_nonneg; lia).
  assert (Hm'0 : 0 < m') by (rewrite Hm'; lia).
  assert (Hq0 : 0 <= q) by nia.
  pose proof (digits2_pos_bounds mx) as Bx. fold d1 in Bx.
  pose proof (digits2_pos_bounds my) as By. fold d2 in By.
  assert (Hd1 : 1 <= d1) by (unfold d1; lia).
  assert (Hd2 : 1 <= d2) by (unfold d2; lia).
  split; [exact Hq0|]. split.
  - destruct (Z_le_gt_dec e' (-1074)) as [Hlow | Hhigh].
    + pose proof (fexp_ge (Zdigits2 q + e')). lia.
    + assert (He' : e' = d1 + ex - (d2 + ey) - 53).
      { unfold e' in *. rewrite fexp_eq in *. lia. }
      assert (Es : s = 52 + d2 - (d1 - 1)) by (unfold s; lia).
      assert (Hbig : 2 ^ 52 * 2 ^ d2 <= m').
      { rewrite Hm', <- pow2_split by lia.
        replace (52 + d2) with ((d1 - 1) + s) by lia.
        rewrite pow2_split by lia.
        apply Z.mul_le_mono_nonneg_r; lia. }
      assert (H52 : 2 ^ 52 <= q).
      { assert (0 < 2 ^ 52) by (apply Z.pow_pos_nonneg; lia).
        set (P := 2 ^ d2) in *. set (T := 2 ^ 52) in *. nia. }
      assert (52 < Zdigits2 q).
      { destruct (Zdigits2_bounds q ltac:(lia)) as [_ Hhi].
        apply (Z.pow_lt_mono_r_iff 2); [lia | apply Zdigits2_nonneg | lia]. }
      pose proof (fexp_ge (Zdigits2 q + e')). lia.
  - assert (Zdigits2 q <= d1 + s); [| unfold s; lia].
    apply Zdigits2_le; [lia|]. split; [exact Hq0|].
    rewrite pow2_split by lia.
    assert (q <= m') by nia.
    assert (m' < 2 ^ d1 * 2 ^ s); [| lia].
    rewrite Hm'. apply Z.mul_lt_mono_pos_r; lia.
Qed.

(** Quotients of finite floats that bit patterns hold are such floats, of
    the sign of the quotient. *)
Lemma SFdiv_finite (sx sy : bool) (mx my : positive) (ex ey : Z) :
  decoded (S754_finite sx mx ex) -> decoded (S754_finite sy my ey) ->
  let r := SFdiv F64.prec F64.emax (S754_finite sx mx ex) (S754_finite sy my ey) in
  decoded r /\ signed (xorb sx sy) r /\
  (Z.max (ex - ey) (-1074) < 970 -> exp_le (Z.max (ex - ey) (-1074) + 1) r).
Proof.
  intros Hx Hy r. subst r. cbn [SFdiv].
  destruct (decoded_digits _ _ _ Hx) as (Dx & Ex & _).
  pose proof (SFdiv_core_spec mx my ex ey ltac:(lia)) as H.
  destruct (SFdiv_core_binary F64.prec F64.emax (Z.pos mx) ex (Z.pos my) ey)
    as [[q e'] l].
  destruct H as (Hq & Hpre & Hb).
  destruct (binary_round_aux_decoded (xorb sx sy) q e' l Hq Hpre) as (H1 & H2 & H3 & _).
  split; [exact H1 | split; [exact H2|]].
  intros Hlt.
  assert (Hf : fexp F64.prec F64.emax (Zdigits2 q + e') <= Z.max (ex - ey) (-1074)).
  { unfold fexp, emin, F64.prec, F64.emax. lia. }
  eapply exp_le_mono; [| apply H3]; lia.
Qed.

Lemma SFdiv_decoded (x y : spec_float) :
  decoded x -> decoded y -> decoded (SFdiv F64.prec F64.emax x y).
Proof.
  intros Hx Hy.
  destruct x as [sx | sx | | sx mx ex]; destruct y as [sy | sy | | sy my ey];
    try (cbn [SFdiv]; constructor).
  apply SFdiv_finite; assumption.
Qed.

(** Products of floats that bit patterns hold are such floats. *)
Lemma SFmul_finite (sx sy : bool) (mx my : positive) (ex ey : Z) :
  decoded (S754_finite sx mx ex) -> decoded (S754_finite sy my ey) ->
  let r := SFmul F64.prec F64.emax (S754_finite sx mx ex) (S754_finite sy my ey) in
  decoded r /\ signed (xorb sx sy) r /\
  (Z.max (53 + ex + ey) (-1074) < 971 -> exp_le (Z.max (53 + ex + ey) (-1074) + 1) r).
Proof.
  intros Hx Hy r. subst r. cbn [SFmul].
  destruct (decoded_digits _ _ _ Hx) as (Dx & Ex & Cx).
  destruct (decoded_digits _ _ _ Hy) as (Dy & Ey & Cy).
  pose proof (digits2_pos_bounds mx) as Bx.
  pose proof (digits2_pos_bounds my) as By.
  pose proof (digits2_pos_bounds (mx * my)) as Bxy.
  rewrite Pos2Z.inj_mul in Bxy.
  set (d := Z.pos (digits2_pos (mx * my))) in *.
  assert (Hd1 : 1 <= d) by (unfold d; lia).
  assert (Hlow : Z.pos (digits2_pos mx) = 53 \/ Z.pos (digits2_pos my) = 53 -> 53 <= d).
  { intros Hn.
    assert (2 ^ 52 <= Z.pos mx * Z.pos my).
    { destruct Hn as [Hn | Hn]; rewrite Hn in *; change (53 - 1) with 52 in *; nia. }
    assert (52 < d); [| lia].
    apply (Z.pow_lt_mono_r_iff 2); lia. }
  assert (Hup : d <= 106).
  { assert (Z.pos mx * Z.pos my < 2 ^ 106).
    { change (2 ^ 106) with (2 ^ 53 * 2 ^ 53).
      assert (Z.pos mx < 2 ^ 53).
      { eapply Z.lt_le_trans; [apply Bx|]. apply Z.pow_le_mono_r; lia. }
      assert (Z.pos my < 2 ^ 53).
      { eapply Z.lt_le_trans; [apply By|]. apply Z.pow_le_mono_r; lia. }
      apply Z.mul_lt_mono_nonneg; lia. }
    assert (d - 1 < 106); [| lia].
    apply (Z.pow_lt_mono_r_iff 2); lia. }
  assert (Hpre : ex + ey <= fexp F64.prec F64.emax (d + (ex + ey))).
  { pose proof (fexp_ge (d + (ex + ey))). lia. }
  destruct (binary_round_aux_decoded (xorb sx sy) (Z.pos (mx * my)) (ex + ey) loc_Exact
              ltac:(lia) Hpre) as (H1 & H2 & H3 & _).
  split; [exact H1 | split; [exact H2|]].
  intros Hlt. cbn [Zdigits2] in H3. fold d in H3.
  assert (Hf : fexp F64.prec F64.emax (d + (ex + ey)) <= Z.max (53 + ex + ey) (-1074)).
  { unfold fexp, emin, F64.prec, F64.emax. lia. }
  eapply exp_le_mono; [| apply H3]; lia.
Qed.

Lemma SFmul_decoded (x y : spec_float) :
  decoded x -> decoded y -> decoded (SFmul F64.prec F64.emax x y).
Proof.
  intros Hx Hy.
  destruct x as [sx | sx | | sx mx ex]; destruct y as [sy | sy | | sy my ey];
    try (cbn [SFmul]; constructor).
  apply SFmul_finite; assumption.
Qed.

(** ** More on the sampler: rates and windows outside the contract *)

(** The operations of [float64] compute on the decoded values. *)
Lemma SF_add (a b : float64) :
  F64.SF (F64.add a b) = SFadd F64.prec F64.emax (F64.SF a) (F64.SF b).
Proof. apply SF_F64_decoded, SFadd_decoded; apply SF_decoded. Qed.

Lemma SF_mul (a b : float64) :
  F64.SF (F64.mul a b) = SFmul F64.prec F64.emax (F64.SF a) (F64.SF b).
Proof. apply SF_F64_decoded, SFmul_decoded; apply SF_decoded. Qed.

Lemma SF_div (a b : float64) :
  F64.SF (F64.div a b) = SFdiv F64.prec F64.emax (F64.SF a) (F64.SF b).
Proof. apply SF_F64_decoded, SFdiv_decoded; apply SF_decoded. Qed.

Lemma SF_of_int_any (n : Z) :
  F64.SF (F64.of_int n) = binary_normalize F64.prec F64.emax n 0 false.
Proof. apply SF_F64_decoded, binary_normalize_decoded. Qed.

Lemma Zdigits2_int (n : Z) : Z.abs n < 2 ^ 64 -> Zdigits2 n <= 64.
Proof.
  intros H. replace (Zdigits2 n) with (Zdigits2 (Z.abs n)) by (destruct n; reflexivity).
  apply Zdigits2_le; lia.
Qed.

(** The conversion of an integer of 64 bits is finite. *)
Lemma of_int_exp_le (n : Z) :
  Z.abs n < 2 ^ 64 -> exp_le 12 (F64.SF (F64.of_int n)).
Proof.
  intros H. rewrite SF_of_int_any.
  destruct (binary_normalize_decoded n 0) as (_ & _ & _ & _ & He).
  pose proof (Zdigits2_int n H). pose proof (Zdigits2_nonneg n).
  assert (fexp F64.prec F64.emax (Zdigits2 n + 0) <= 11).
  { unfold fexp, emin, F64.prec, F64.emax. lia. }
  eapply exp_le_mono; [| apply He]; lia.
Qed.

Lemma of_int_positive (n : Z) :
  0 < n -> nonneg (F64.SF (F64.of_int n)) /\ nonzero (F64.SF (F64.of_int n)).
Proof.
  intros H. rewrite SF_of_int_any.
  destruct (binary_normalize_decoded n 0) as (_ & Hn & _ & Hz & _).
  split; [apply Hn; lia|]. apply Hz; [lia|].
  destruct n as [| p | p]; try lia. cbn [Zdigits2]. lia.
Qed.

Lemma of_int_nonneg (n : Z) : 0 <= n -> nonneg (F64.SF (F64.of_int n)).
Proof.
  intros H. rewrite SF_of_int_any.
  apply (binary_normalize_decoded n 0). exact H.
Qed.

Lemma of_int_nonpos (n : Z) : n <= 0 -> nonpos (F64.SF (F64.of_int n)).
Proof.
  intros H. rewrite SF_of_int_any.
  apply (binary_normalize_decoded n 0). exact H.
Qed.

Lemma of_int_negative (n : Z) :
  n < 0 -> nonpos (F64.SF (F64.of_int n)) /\ nonzero (F64.SF (F64.of_int n)).
Proof.
  intros H. split; [apply of_int_nonpos; lia|]. rewrite SF_of_int_any.
  destruct (binary_normalize_decoded n 0) as (_ & _ & _ & Hz & _).
  apply Hz; [lia|].
  destruct n as [| p | p]; try lia. cbn [Zdigits2]. lia.
Qed.

Lemma SFltb_nonpos_positive (x y : spec_float) :
  nonpos x -> nonneg y -> nonzero y -> SFltb x y = true.
Proof.
  unfold SFltb.
  destruct x as [sx | sx | | sx mx ex]; destruct y as [sy | sy | | sy my ey];
    cbn [nonpos nonneg nonzero]; intros Hx Hy Hz; subst;
    try contradiction; try discriminate; reflexivity.
Qed.

Lemma SFltb_nonneg_nonpos (x y : spec_float) :
  nonneg x -> nonpos y -> SFltb x y = false.
Proof.
  unfold SFltb.
  destruct x as [sx | sx | | sx mx ex]; destruct y as [sy | sy | | sy my ey];
    cbn [nonpos nonneg]; intros Hx Hy; subst;
    try contradiction; try discriminate; try reflexivity;
    try (destruct sx; reflexivity); try (destruct sy; reflexivity).
Qed.

Lemma SFdiv_positive_nonpos (x y : spec_float) :
  nonneg x -> nonzero x -> (exists m e, x = S754_finite false m e) ->
  nonpos y -> nonzero y -> decoded x -> decoded y ->
  nonpos (SFdiv F64.prec F64.emax x y).
Proof.
  intros Hx Hxz (m & e & ->) Hy Hyz Dx Dy.
  destruct y as [sy | sy | | sy my ey]; cbn [nonpos nonzero] in Hy, Hyz;
    try contradiction; subst.
  - cbn. trivial.
  - destruct (SFdiv_finite false true m my e ey Dx Dy) as (_ & Hs & _).
    apply signed_true_nonpos. exact Hs.
Qed.

(** With a negative step the cursor, once at or below zero, stays there:
    the loop never ends. *)
Lemma Sample_loop_negative_step (s : Signal) (step hi : float64) :
  nonpos (F64.SF step) -> nonneg (F64.SF hi) -> nonzero (F64.SF hi) ->
  forall (fuel : nat) (i : float64) (acc : list float64),
  nonpos (F64.SF i) -> Sample_loop fuel s step hi i acc = None.
Proof.
  intros Hstep Hhi Hhz.
  induction fuel as [| fuel IH]; intros i acc Hi; cbn [Sample_loop].
  - reflexivity.
  - unfold F64.ltb. rewrite SFltb_nonpos_positive by assumption.
    apply IH. rewrite SF_add. apply SFadd_nonpos; assumption.
Qed.

Lemma SF_Second : F64.SF (F64.of_int Time.Second) = S754_finite false 8388608000000000 (-23).
Proof. vm_compute. reflexivity. Qed.

(** X3: with a negative rate the step is negative and [Sample] never
    returns, whenever the window starts at an offset [from <= 0] and ends
    at an offset [from + to > 0]: the cursor only moves away from the
    bound. *)
Theorem Sample_negative_rate_never_returns (s : Signal) (rate : Z)
    (from to : Time.Duration) (fuel : nat) :
  rate < 0 -> Int64.in_range from -> from <= 0 ->
  0 < from + to <= Int64.max_signed ->
  Sample fuel s rate from to = None.
Proof.
  intros Hrate Hfrom Hle Hend. unfold Sample, Int64.add.
  rewrite wrap64_in_range.
  2:{ unfold Int64.in_range, Int64.min_signed, Int64.max_signed in *.
      change (2 ^ 63) with 9223372036854775808 in *. lia. }
  destruct (of_int_positive (from + to) ltac:(lia)) as [Hn Hz].
  destruct (of_int_negative rate Hrate) as [Rn Rz].
  apply Sample_loop_negative_step; try assumption.
  - rewrite SF_div, SF_Second.
    apply SFdiv_positive_nonpos; try assumption; try (cbn; trivial).
    + eexists _, _. reflexivity.
    + rewrite <- SF_Second. apply SF_decoded.
    + apply SF_decoded.
  - apply of_int_nonpos. exact Hle.
Qed.

Lemma Sample_negative_rate_never_returns_witness :
  Sample 5 (Constant F64.two) (-1) 0 Time.Second = None.
Proof.
  apply (Sample_negative_rate_never_returns (Constant F64.two) (-1) 0 Time.Second 5).
  - reflexivity.
  - split; discriminate.
  - discriminate.
  - split; [reflexivity | discriminate].
Defined.

(** X4: when [from + to] overflows [int64], with [from >= 0] and
    [to >= 0], the bound wraps to a negative offset and [Sample] returns
    the empty sequence, whatever the signal and the rate. *)
Theorem Sample_window_overflow (s : Signal) (rate : Z) (from to : Time.Duration)
    (fuel : nat) :
  0 <= from <= Int64.max_signed -> 0 <= to <= Int64.max_signed ->
  Int64.max_signed < from + to ->
  Sample (S fuel) s rate from to = Some [].
Proof.
  intros Hfrom Hto Hover. unfold Sample. cbn [Sample_loop].
  assert (Hw : Int64.add from to < 0).
  { unfold Int64.add, Int64.wrap64, Int64.half_modulus, Int64.modulus,
      Int64.max_signed in *.
    change (2 ^ 63) with 9223372036854775808 in *.
    change (2 ^ 64) with 18446744073709551616.
    Z.div_mod_to_equations. lia. }
  unfold F64.ltb. rewrite SFltb_nonneg_nonpos; [reflexivity | |].
  - apply of_int_nonneg. lia.
  - apply of_int_nonpos. lia.
Qed.

Lemma Sample_window_overflow_witness :
  Sample 1 (Constant F64.two) 44100 Int64.max_signed Time.Second = Some [].
Proof.
  apply (Sample_window_overflow (Constant F64.two) 44100 Int64.max_signed Time.Second 0).
  - split; discriminate.
  - split; discriminate.
  - reflexivity.
Defined.

(** ** More on [Sine]: zero and non-finite frequencies *)

Lemma wrap64_abs (z : Z) : Z.abs (Int64.wrap64 z) < 2 ^ 64.
Proof.
  unfold Int64.wrap64, Int64.half_modulus, Int64.modulus.
  change (2 ^ 63) with 9223372036854775808.
  change (2 ^ 64) with 18446744073709551616.
  Z.div_mod_to_equations. lia.
Qed.

(** [t.Seconds()] is finite for every [t]. *)
Lemma Seconds_exp_le (t : Time.Duration) : exp_le 38 (F64.SF (Time.Seconds t)).
Proof.
  unfold Time.Seconds. rewrite SF_add.
  apply (SFadd_exp_le 36); try apply SF_decoded; try lia.
  - eapply exp_le_mono; [| apply of_int_exp_le]; [lia|].
    unfold Int64.div. apply wrap64_abs.
  - rewrite SF_div.
    assert (Hn : exp_le 12 (F64.SF (F64.of_int (Int64.rem t Time.Second)))).
    { apply of_int_exp_le. unfold Int64.rem, Time.Second.
      pose proof (Z.rem_bound_abs t 1000000000 ltac:(lia)).
      change (2 ^ 64) with 18446744073709551616. lia. }
    pose proof (SF_decoded (F64.of_int (Int64.rem t Time.Second))) as Dn.
    change (F64.of_int 1000000000) with (F64.of_int Time.Second).
    pose proof (SF_decoded (F64.of_int Time.Second)) as Ds.
    rewrite SF_Second in *.
    destruct (F64.SF (F64.of_int (Int64.rem t Time.Second))) as [sn | sn | | sn mn en];
      cbn [exp_le] in Hn; try contradiction.
    + cbn. trivial.
    + destruct (SFdiv_finite sn false mn 8388608000000000 en (-23) Dn Ds) as (_ & _ & He).
      eapply exp_le_mono; [| apply He]; lia.
Qed.

(** The phase [2π * t.Seconds()] is finite for every [t]. *)
Lemma phase_exp_le (t : Time.Duration) :
  exp_le 42 (F64.SF (F64.mul two_pi (Time.Seconds t))).
Proof.
  rewrite SF_mul, SF_two_pi.
  pose proof (Seconds_exp_le t) as Hs.
  pose proof (SF_decoded (Time.Seconds t)) as Ds.
  pose proof (SF_decoded two_pi) as Dp. rewrite SF_two_pi in Dp.
  destruct (F64.SF (Time.Seconds t)) as [sx | sx | | sx mx ex];
    cbn [exp_le] in Hs; try contradiction.
  - cbn. trivial.
  - destruct (SFmul_finite false sx pi_mant mx (-50) ex Dp Ds) as (_ & _ & He).
    destruct (decoded_digits _ _ _ Ds) as (_ & Ex & _).
    eapply exp_le_mono; [| apply He]; lia.
Qed.

Lemma SFeqb_zero (x : spec_float) :
  SFeqb x (S754_zero false) = true -> exists s, x = S754_zero s.
Proof.
  unfold SFeqb. destruct x as [s | s | | s m e]; cbn [SFcompare]; intros H.
  - exists s. reflexivity.
  - destruct s; discriminate H.
  - discriminate H.
  - destruct s; discriminate H.
Qed.

Lemma Sine_unfold (kernel : float64 -> float64) (freq : Signal) (t : Time.Duration) :
  Sine kernel freq t
  = Math.Sin kernel (F64.mul (F64.mul two_pi (Time.Seconds t)) (freq t)).
Proof. unfold Sine. rewrite mul_two_Pi. reflexivity. Qed.

Lemma Sine_silent (kernel : float64 -> float64) (freq : Signal)
    (t : Time.Duration) :
  F64.eqb (freq t) F64.zero = true ->
  F64.eqb (Sine kernel freq t) F64.zero = true.
Proof.
  intros Hf. rewrite Sine_unfold.
  destruct (SFeqb_zero _ Hf) as [sf Hsf].
  pose proof (phase_exp_le t) as Hp.
  assert (E : exists s, F64.mul (F64.mul two_pi (Time.Seconds t)) (freq t)
                        = F64.with_sign s 0).
  { unfold F64.mul at 1. rewrite Hsf.
    destruct (F64.SF (F64.mul two_pi (Time.Seconds t))) as [sx | sx | | sx mx ex];
      cbn [exp_le] in Hp; try contradiction; cbn [SFmul F64.F64]; eexists; reflexivity. }
  destruct E as [s ->]. rewrite Sin_signed_zero. destruct s; reflexivity.
Qed.

(** X9: where the frequency signal is an infinity or a NaN, [Sine] is a
    NaN, at every time offset. *)
Theorem Sine_nonfinite_frequency (kernel : float64 -> float64) (freq : Signal)
    (t : Time.Duration) :
  F64.is_finite (freq t) = false ->
  F64.is_nan (Sine kernel freq t) = true.
Proof.
  intros Hf. rewrite Sine_unfold.
  pose proof (phase_exp_le t) as Hp.
  assert (Hv : F64.SF (freq t) = S754_nan \/ exists s, F64.SF (freq t) = S754_infinity s).
  { unfold F64.is_finite in Hf. unfold F64.SF.
    destruct (Z.eqb_spec (F64.exp_of (freq t)) F64.exp_inf) as [E | E]; [| discriminate Hf].
    rewrite E. cbn [Z.eqb F64.exp_inf].
    destruct (F64.mant_of (freq t) =? 0); [right; eexists; reflexivity | left; reflexivity]. }
  set (y := F64.mul two_pi (Time.Seconds t)) in *.
  assert (E : F64.mul y (freq t) = Math.NaN \/
              exists s, F64.mul y (freq t) = F64.with_sign s F64.inf).
  { unfold F64.mul at 1 2.
    destruct Hv as [-> | [s ->]].
    - left. destruct (F64.SF y); reflexivity.
    - destruct (F64.SF y) as [sx | sx | | sx mx ex];
        cbn [exp_le] in Hp; try contradiction; cbn [SFmul F64.F64].
      + left. reflexivity.
      + right. eexists. reflexivity. }
  destruct E as [-> | [s ->]].
  - reflexivity.
  - destruct s; reflexivity.
Qed.

Lemma Sine_nonfinite_frequency_witness :
  F64.is_nan (Sine (fun x => x) (Constant F64.inf) Time.Second) = true.
Proof.
  apply (Sine_nonfinite_frequency (fun x => x) (Constant F64.inf) Time.Second).
  reflexivity.
Defined.

(** X8: where the frequency signal is [+0] or [-0], [Sine] is a zero, at
    every time offset: a sine of frequency zero is silent. *)
Theorem Sine_zero_frequency (kernel : float64 -> float64) (freq : Signal)
    (t : Time.Duration) :
  F64.eqb (freq t) F64.zero = true ->
  F64.eqb (Sine kernel freq t) F64.zero = true.
Proof. apply Sine_silent. Qed.

Lemma Sine_zero_frequency_witness :
  F64.eqb (Sine (fun x => x) (Constant F64.neg_zero) Time.Second) F64.zero = true.
Proof.
  apply (Sine_zero_frequency (fun x => x) (Constant F64.neg_zero) Time.Second).
  reflexivity.
Defined.

(** ** More on the sampler: the signal, the window, composition *)

Lemma Sample_loop_offsets (s : Signal) (step hi : float64) (fuel : nat) :
  forall (i : float64) (offsets : list Time.Duration),
  Sample_loop fuel s step hi i (map s offsets)
  = option_map (map s) (Sample_offsets_loop fuel step hi i offsets).
Proof.
  induction fuel as [| fuel IH]; intros i offsets; cbn [Sample_loop Sample_offsets_loop].
  - reflexivity.
  - destruct (F64.ltb i hi); [| reflexivity].
    rewrite <- IH, map_app. reflexivity.
Qed.

Lemma Sample_pointwise (s : Signal) (fuel : nat) (rate : Z) (from to : Time.Duration) :
  Sample fuel s rate from to
  = option_map (map s) (Sample_offsets fuel rate from to).
Proof. unfold Sample, Sample_offsets. apply (Sample_loop_offsets s _ _ fuel _ []). Qed.

(** X1: the frames [Sample] returns are a signal applied, in order, to
    offsets that do not depend on the signal: with the same rate and
    window every other signal is sampled at the same offsets, so that the
    number of frames and termination are those of the rate and window
    alone. *)
Theorem Sample_signal_pointwise (s1 : Signal) (rate : Z) (from to : Time.Duration)
    (frames1 : list float64) :
  returns s1 rate from to frames1 ->
  exists offsets : list Time.Duration,
    frames1 = map s1 offsets /\
    forall s2 : Signal, returns s2 rate from to (map s2 offsets).
Proof.
  intros [fuel H]. rewrite Sample_pointwise in H.
  destruct (Sample_offsets fuel rate from to) as [offs |] eqn:E; [| discriminate H].
  injection H as <-.
  exists offs. split; [reflexivity|].
  intros s2. exists fuel. rewrite Sample_pointwise, E. reflexivity.
Qed.

Lemma Sample_signal_pointwise_witness :
  exists offsets : list Time.Duration,
    [F64.two; F64.two] = map (Constant F64.two) offsets /\
    forall s2 : Signal, returns s2 2 0 Time.Second (map s2 offsets).
Proof.
  apply (Sample_signal_pointwise (Constant F64.two) 2 0 Time.Second).
  exists 3%nat. vm_compute. reflexivity.
Defined.

(** X2: for every rate, when [from >= 0], [to > 0] and [from + to < 2^53],
    a call of [Sample] that returns gives the signal at [from] as its
    first frame. *)
Theorem Sample_first_frame_any_rate (s : Signal) (rate : Z) (from to : Time.Duration)
    (frames : list float64) :
  0 <= from -> 0 < to -> from + to < 2 ^ 53 ->
  returns s rate from to frames -> exists rest, frames = s from :: rest.
Proof. apply Sample_first_frame. Qed.

Lemma Sample_first_frame_any_rate_witness :
  exists rest, [F64.two; F64.two] = Constant F64.two 0 :: rest.
Proof.
  apply (Sample_first_frame_any_rate (Constant F64.two) 2 0 Time.Second).
  - discriminate.
  - reflexivity.
  - reflexivity.
  - exists 3%nat. vm_compute. reflexivity.
Defined.

(** X5: with a duration [to <= 0] that does not reach below offset [0],
    and [from < 2^53], [Sample] returns the empty sequence, whatever the
    signal and the rate. *)
Theorem Sample_negative_duration (s : Signal) (rate : Z) (from to : Time.Duration)
    (fuel : nat) :
  0 <= from + to -> to <= 0 -> from < 2 ^ 53 ->
  Sample (S fuel) s rate from to = Some [].
Proof.
  intros Hend Hto Hfrom. unfold Sample, Int64.add.
  rewrite wrap64_in_range.
  2:{ unfold Int64.in_range, Int64.min_signed, Int64.max_signed.
      change (2 ^ 53) with 9007199254740992 in Hfrom.
      change (2 ^ 63) with 9223372036854775808. lia. }
  cbn [Sample_loop]. rewrite ltb_of_int by lia.
  replace (from <? from + to) with false by (symmetry; apply Z.ltb_ge; lia).
  reflexivity.
Qed.

Lemma Sample_negative_duration_witness :
  Sample 1 (Constant F64.two) 44100 Time.Second (- Time.Second) = Some [].
Proof.
  apply (Sample_negative_duration (Constant F64.two) 44100 Time.Second (- Time.Second) 0).
  - discriminate.
  - discriminate.
  - reflexivity.
Defined.

Lemma samples_app (s : Signal) (c q : Z) (n1 n2 : nat) :
  samples s c q (n1 + n2)
  = samples s c q n1 ++ samples s (c + Z.of_nat n1 * q) q n2.
Proof.
  revert c. induction n1 as [| n1 IH]; intro c.
  - cbn [Nat.add]. change (samples s c q 0) with (@nil float64).
    cbn [app]. f_equal. lia.
  - cbn [Nat.add]. rewrite !samples_S, IH. cbn [app]. do 3 f_equal. lia.
Qed.

Lemma steps_add (to1 to2 q : Z) :
  0 < q -> 0 <= to1 -> 0 <= to2 -> (q | to1) ->
  steps 0 (to1 + to2) q = (steps 0 to1 q + steps 0 to2 q)%nat /\
  Z.of_nat (steps 0 to1 q) * q = to1.
Proof.
  intros Hq H1 H2 [k Hk]. subst to1. unfold steps.
  assert (Hk0 : 0 <= k) by nia.
  replace (k * q - 0 + q - 1) with (q - 1 + k * q) by lia.
  replace (k * q + to2 - 0 + q - 1) with (to2 - 0 + q - 1 + k * q) by lia.
  rewrite !Z.div_add by lia.
  rewrite (Z.div_small (q - 1) q) by lia.
  assert (0 <= (to2 - 0 + q - 1) / q) by (apply Z.div_pos; lia).
  split.
  - rewrite Z2Nat.inj_add by lia. lia.
  - rewrite Z2Nat.id by lia. lia.
Qed.

(** X6: adjacent windows compose.  When the rate divides [10^9] and the
    first duration [to1] is a multiple of the step, sampling [to1] from
    [from] and then [to2] from [from + to1] gives, concatenated, the
    frames of sampling [to1 + to2] from [from]. *)
Theorem Sample_windows_compose (s : Signal) (rate : Z) (from to1 to2 : Time.Duration) :
  0 < rate -> (rate | Time.Second) -> 0 <= from -> 0 <= to1 -> 0 <= to2 ->
  (Time.Second / rate | to1) ->
  from + to1 + to2 + Time.Second / rate < 2 ^ 53 ->
  exists frames1 frames2 : list float64,
    returns s rate from to1 frames1 /\
    returns s rate (from + to1) to2 frames2 /\
    returns s rate from (to1 + to2) (frames1 ++ frames2).
Proof.
  intros Hr Hdiv Hfrom H1 H2 Hal Hb.
  set (q := Time.Second / rate) in *.
  assert (Hq : 0 < q).
  { unfold q. destruct Hdiv as [k Hk]. rewrite Hk, Z.div_mul by lia.
    unfold Time.Second in Hk. nia. }
  destruct (steps_add to1 to2 q Hq H1 H2 Hal) as [Hs Hn].
  exists (samples s from q (steps 0 to1 q)), (samples s (from + to1) q (steps 0 to2 q)).
  split; [| split].
  - exists (S (steps 0 to1 q)). apply Sample_exact_rate; try assumption. fold q. lia.
  - exists (S (steps 0 to2 q)). apply Sample_exact_rate; try assumption; fold q; lia.
  - exists (S (steps 0 (to1 + to2) q)).
    unfold q at 1. rewrite Sample_exact_rate; try assumption; try (fold q; lia).
    fold q. rewrite Hs, samples_app, Hn. reflexivity.
Qed.

Lemma Sample_windows_compose_witness :
  exists frames1 frames2 : list float64,
    returns (Constant F64.two) 4 0 500000000 frames1 /\
    returns (Constant F64.two) 4 (0 + 500000000) 1 frames2 /\
    returns (Constant F64.two) 4 0 (500000000 + 1) (frames1 ++ frames2).
Proof.
  apply (Sample_windows_compose (Constant F64.two) 4 0 500000000 1).
  - reflexivity.
  - exists 250000000. reflexivity.
  - discriminate.
  - discriminate.
  - discriminate.
  - exists 2. reflexivity.
  - reflexivity.
Defined.

Lemma steps_last (to q : Z) (k : nat) :
  0 < q -> 0 <= to -> (k < steps 0 to q)%nat -> Z.of_nat k * q < to.
Proof.
  intros Hq Hto Hk. unfold steps in Hk.
  replace (to - 0 + q - 1) with (to + q - 1) in Hk by lia.
  assert (0 <= (to + q - 1) / q) by (apply Z.div_pos; lia).
  assert (Hlt : Z.of_nat k < (to + q - 1) / q) by lia.
  pose proof (Z.mul_div_le (to + q - 1) q Hq). nia.
Qed.

(** X7: when the rate divides [10^9] and [from + to + step < 2^53],
    [Sample] evaluates its signal only at offsets of the window
    [from <= o < from + to]. *)
Theorem Sample_within_window (rate : Z) (from to : Time.Duration) :
  0 < rate -> (rate | Time.Second) -> 0 <= from -> 0 <= to ->
  from + to + Time.Second / rate < 2 ^ 53 ->
  exists offsets : list Time.Duration,
    (forall s : Signal, returns s rate from to (map s offsets)) /\
    Forall (fun o => from <= o < from + to) offsets.
Proof.
  intros Hr Hdiv Hfrom Hto Hb.
  set (q := Time.Second / rate) in *.
  assert (Hq : 0 < q).
  { unfold q. destruct Hdiv as [k Hk]. rewrite Hk, Z.div_mul by lia.
    unfold Time.Second in Hk. nia. }
  exists (map (fun k => from + Z.of_nat k * q) (seq 0 (steps 0 to q))). split.
  - intros s. exists (S (steps 0 to q)). unfold q.
    rewrite Sample_exact_rate by assumption.
    unfold samples. rewrite map_map. reflexivity.
  - apply Forall_forall. intros o Ho. apply in_map_iff in Ho.
    destruct Ho as (k & <- & Hk). apply in_seq in Hk.
    pose proof (steps_last to q k Hq Hto ltac:(lia)). lia.
Qed.

Lemma Sample_within_window_witness :
  exists offsets : list Time.Duration,
    (forall s : Signal, returns s 4 0 Time.Second (map s offsets)) /\
    Forall (fun o => 0 <= o < 0 + Time.Second) offsets.
Proof.
  apply (Sample_within_window 4 0 Time.Second).
  - reflexivity.
  - exists 250000000. reflexivity.
  - discriminate.
  - discriminate.
  - reflexivity.
Defined.

(** ** More on the encoder *)

Lemma EncodePCM_concatenation (frames1 frames2 : list float64) :
  EncodePCM (frames1 ++ frames2) = EncodePCM frames1 ++ EncodePCM frames2.
Proof. rewrite !EncodePCM_concat, map_app, concat_app. reflexivity. Qed.

(** X10: [EncodePCM] of a concatenation is the concatenation of the
    encodings: the buffer it reuses carries nothing from one frame to
    the next, and encoded chunks can be appended to one another. *)
Theorem EncodePCM_app (frames1 frames2 : list float64) :
  EncodePCM (frames1 ++ frames2) = EncodePCM frames1 ++ EncodePCM frames2.
Proof. apply EncodePCM_concatenation. Qed.

Lemma EncodePCM_length (frames : list float64) :
  length (EncodePCM frames) = (8 * length frames)%nat.
Proof.
  rewrite EncodePCM_concat.
  induction frames as [| f frames IH]; [reflexivity|].
  cbn [map concat]. rewrite length_app, big_endian_length, IH. cbn [length]. lia.
Qed.

Lemma EncodePCM_skipn (frames : list float64) (k : nat) :
  skipn (8 * k) (EncodePCM frames) = EncodePCM (skipn k frames).
Proof.
  revert frames. induction k as [| k IH]; intro frames.
  - reflexivity.
  - destruct frames as [| f frames].
    + rewrite !skipn_nil. reflexivity.
    + change (f :: frames) with ([f] ++ frames) at 1.
      rewrite EncodePCM_concatenation.
      replace (8 * S k)%nat with (length (EncodePCM [f]) + 8 * k)%nat
        by (rewrite EncodePCM_length; cbn [length]; lia).
      rewrite skipn_app, skipn_all2 by lia.
      replace (length (EncodePCM [f]) + 8 * k - length (EncodePCM [f]))%nat
        with (8 * k)%nat by lia.
      cbn [app skipn]. apply IH.
Qed.

Lemma firstn_app_exact {A : Type} (n : nat) (a b : list A) :
  length a = n -> firstn n (a ++ b) = a.
Proof.
  intros <-. rewrite firstn_app, Nat.sub_diag, firstn_all. cbn [firstn].
  apply app_nil_r.
Qed.

(** X11: the frame of index [k] is read back from the eight bytes at
    offset [8 * k] of the encoding, with [binary.BigEndian.Uint64] and
    [math.Float64frombits]. *)
Theorem EncodePCM_frame_at (frames : list float64) (k : nat) :
  (k < length frames)%nat -> is_float64 (nth k frames 0) ->
  Math.Float64frombits
    (Binary.Uint64 (firstn 8 (skipn (8 * k) (EncodePCM frames))))
  = nth k frames 0.
Proof.
  intros Hk Hf. rewrite EncodePCM_skipn.
  rewrite <- (firstn_skipn k frames) in Hf.
  rewrite app_nth2 in Hf by (rewrite length_firstn; lia).
  rewrite length_firstn in Hf. replace (k - Nat.min k (length frames))%nat with 0%nat in Hf by lia.
  assert (Hn : nth k frames 0 = nth 0 (skipn k frames) 0).
  { rewrite <- (firstn_skipn k frames) at 1.
    rewrite app_nth2 by (rewrite length_firstn; lia).
    rewrite length_firstn. f_equal. lia. }
  rewrite Hn.
  destruct (skipn k frames) as [| f rest] eqn:E.
  - assert (length (skipn k frames) = 0%nat) by (rewrite E; reflexivity).
    rewrite length_skipn in H. lia.
  - cbn [nth] in *. change (f :: rest) with ([f] ++ rest).
    rewrite EncodePCM_concatenation, firstn_app_exact by (rewrite EncodePCM_length; reflexivity).
    rewrite EncodePCM_concat. cbn [map concat]. rewrite app_nil_r.
    unfold Math.Float64frombits. apply Uint64_big_endian. exact Hf.
Qed.

Lemma EncodePCM_frame_at_witness :
  Math.Float64frombits
    (Binary.Uint64
       (firstn 8 (skipn (8 * 2) (EncodePCM [F64.zero; F64.of_int 1; Math.NaN]))))
  = nth 2 [F64.zero; F64.of_int 1; Math.NaN] 0.
Proof.
  apply (EncodePCM_frame_at [F64.zero; F64.of_int 1; Math.NaN] 2).
  - vm_compute. repeat constructor.
  - vm_compute. split; [discriminate | reflexivity].
Defined.

(** ** The whole program *)

Lemma Sine_440_at_zero (kernel : float64 -> float64) :
  Sine kernel (Constant (F64.of_int 440)) 0 = F64.zero.
Proof.
  unfold Sine. rewrite Seconds_zero_two_Pi, mul_zero_finite by (vm_compute; reflexivity).
  reflexivity.
Qed.

(** X12: [main] terminates whatever the polynomial part of [math.Sin]
    computes, and writes 1764008 bytes, the encoding of 220501 frames;
    the first eight are zero, the frame at offset [0]. *)
Theorem main_output (kernel : float64 -> float64) :
  exists (fuel : nat) (out : list Z),
    main fuel kernel = Some out /\
    Z.of_nat (length out) = 1764008 /\
    firstn 8 out = [0; 0; 0; 0; 0; 0; 0; 0].
Proof.
  destruct (main_frame_count (Sine kernel (Constant (F64.of_int 440))))
    as (frames & Hret & Hlen).
  destruct (Sample_first_frame (Sine kernel (Constant (F64.of_int 440))) 44100 0
              (5 * Time.Second) frames ltac:(lia) ltac:(reflexivity)
              ltac:(reflexivity) Hret) as [rest Hfr].
  destruct Hret as [fuel Hs].
  exists fuel, (EncodePCM frames). split; [| split].
  - unfold main. rewrite Hs. reflexivity.
  - rewrite EncodePCM_length. lia.
  - rewrite Hfr, Sine_440_at_zero.
    change (F64.zero :: rest) with ([F64.zero] ++ rest).
    rewrite EncodePCM_concatenation. apply firstn_app_exact. reflexivity.
Qed.

(** X13: every frame of a sampled [Constant v] is [v], for every rate and
    window. *)
Theorem Sample_Constant (v : float64) (rate : Z) (from to : Time.Duration)
    (frames : list float64) :
  returns (Constant v) rate from to frames -> frames = repeat v (length frames).
Proof.
  intros [fuel H]. rewrite Sample_pointwise in H.
  destruct (Sample_offsets fuel rate from to) as [offs |]; [| discriminate H].
  injection H as <-. rewrite length_map.
  induction offs as [| o offs IH]; [reflexivity|].
  cbn [map length repeat]. f_equal. exact IH.
Qed.

Lemma Sample_Constant_witness :
  [F64.two; F64.two] = repeat F64.two (length [F64.two; F64.two]).
Proof.
  apply (Sample_Constant F64.two 2 0 Time.Second).
  exists 3%nat. vm_compute. reflexivity.
Defined.

(** X14: every frame of a sampled sine of frequency [+0] is a zero, for
    every rate and window. *)
Theorem Sample_Sine_zero_frequency (kernel : float64 -> float64) (rate : Z)
    (from to : Time.Duration) (frames : list float64) :
  returns (Sine kernel (Constant F64.zero)) rate from to frames ->
  Forall (fun f => F64.eqb f F64.zero = true) frames.
Proof.
  intros [fuel H]. rewrite Sample_pointwise in H.
  destruct (Sample_offsets fuel rate from to) as [offs |]; [| discriminate H].
  injection H as <-. apply Forall_map, Forall_forall. intros t _.
  apply Sine_silent. reflexivity.
Qed.

Lemma Sample_Sine_zero_frequency_witness :
  Forall (fun f => F64.eqb f F64.zero = true) [F64.zero; F64.zero].
Proof.
  apply (Sample_Sine_zero_frequency (fun x => x) 2 0 Time.Second).
  exists 3%nat. vm_compute. reflexivity.
Defined.

(** ** Termination of the sampler

    At a rate of at most [10^9] the step is at least one nanosecond, and
    below [2^53] a float cursor that is at least the integer [c] is, one
    step later, at least [c + 1]: the rounded sum does not go below an
    integer that the exact sum reaches. *)

Lemma pow2_pos (a : Z) : 0 <= a -> 0 < 2 ^ a.
Proof. intro H. apply Z.pow_pos_nonneg; lia. Qed.

Lemma scaled_shift (m e n : Z) :
  0 <= n -> -2200 <= e -> scaled (m * 2 ^ n) e = scaled m (e + n).
Proof.
  intros Hn He. unfold scaled.
  replace (e + n + 2200) with (n + (e + 2200)) by lia.
  rewrite (pow2_split n (e + 2200)) by lia. ring.
Qed.

Lemma round_last_stage_ge (m f k : Z) :
  0 <= m <= 2 ^ 53 -> -1074 <= f -> (f = -1074 \/ 2 ^ 52 <= m) ->
  k * 2 ^ 2200 <= scaled m f ->
  let '(mrs, e) := shr_fexp F64.prec F64.emax m f loc_Exact in
  ge_int match shr_m mrs with
         | Z0 => S754_zero false
         | Z.pos p => if e <=? F64.emax - F64.prec then S754_finite false p e
                      else S754_infinity false
         | Z.neg _ => S754_nan
         end k.
Proof.
  intros Hm Hf Hcan Hk.
  assert (HU : 0 < 2 ^ 2200) by (apply pow2_pos; lia).
  unfold shr_fexp. cbn [shr_record_of_loc].
  destruct (Z.eq_dec m 0) as [-> | Hm0].
  - cbn [Zdigits2]. rewrite fexp_eq.
    assert (Hz : ge_int (S754_zero false) k).
    { cbn [ge_int]. unfold scaled in Hk. nia. }
    destruct (Z.max (0 + f - 53) (-1074) - f) as [| j | j] eqn:Hj; try lia;
      cbn [shr shr_m]; exact Hz.
  - destruct (Z.eq_dec m (2 ^ 53)) as [-> | Hm53].
    + change (Zdigits2 (2 ^ 53)) with 54. rewrite fexp_eq.
      replace (Z.max (54 + f - 53) (-1074) - f) with 1 by lia.
      cbn [shr shr_m iter_pos]. change (2 ^ 53) with (Z.pos 9007199254740992).
      cbn [shr_1 shr_m].
      destruct (Z.leb_spec (f + 1) (F64.emax - F64.prec)); [| exact I].
      cbn [ge_int].
      change (Z.pos 4503599627370496) with (2 ^ 52).
      change (2 ^ 53) with (2 ^ 52 * 2 ^ 1) in Hk.
      rewrite scaled_shift in Hk by lia. exact Hk.
    + assert (Hd : Zdigits2 m <= 53) by (apply Zdigits2_le; lia).
      assert (Hd1 : 2 ^ 52 <= m -> Zdigits2 m = 53).
      { intro H. apply Zdigits2_unique; [| lia]. change (53 - 1) with 52. lia. }
      pose proof (Zdigits2_nonneg m) as Hd0.
      rewrite fexp_eq.
      assert (E0 : Z.max (Zdigits2 m + f - 53) (-1074) - f = 0).
      { destruct Hcan as [-> | H]; [lia | rewrite (Hd1 H); lia]. }
      rewrite E0. cbn [shr shr_m].
      destruct m as [| p | p]; try lia.
      destruct (Z.leb_spec f (F64.emax - F64.prec)); [| exact I].
      exact Hk.
Qed.

(** Rounding does not go below an integer [k <= 2^53] that the exact
    value reaches. *)
Lemma binary_round_aux_ge (m e k : Z) (l : location) :
  0 <= m -> -2200 <= e -> e <= fexp F64.prec F64.emax (Zdigits2 m + e) ->
  0 <= k <= 2 ^ 53 -> k * 2 ^ 2200 <= scaled m e ->
  ge_int (binary_round_aux F64.prec F64.emax false m e l) k.
Proof.
  intros Hm He Hpre Hk Hv.
  assert (HU : 0 < 2 ^ 2200) by (apply pow2_pos; lia).
  set (f := fexp F64.prec F64.emax (Zdigits2 m + e)) in *.
  unfold binary_round_aux.
  pose proof (shr_m_div (shr_record_of_loc m l) e (f - e)) as Hshr.
  rewrite shr_record_of_loc_m in Hshr. specialize (Hshr Hm ltac:(lia)).
  change (shr (shr_record_of_loc m l) e (f - e))
    with (shr_fexp F64.prec F64.emax m e l) in Hshr.
  destruct (shr_fexp F64.prec F64.emax m e l) as [mrs1 e1].
  cbn [fst snd] in Hshr. destruct Hshr as [Hm1 He1].
  replace (e + (f - e)) with f in He1 by lia. subst e1.
  set (n := f - e) in *.
  assert (Hn : 0 <= n) by (unfold n; lia).
  assert (Hp : 0 < 2 ^ n) by (apply pow2_pos; lia).
  assert (Hf : f = Z.max (Zdigits2 m + e - 53) (-1074)) by reflexivity.
  assert (B1 : 0 <= shr_m mrs1 < 2 ^ 53).
  { rewrite Hm1. split; [apply Z.div_pos; lia|].
    apply Z.div_lt_upper_bound; [lia|].
    destruct (Z.eq_dec m 0) as [-> | Hm0].
    - assert (0 < 2 ^ 53) by (apply pow2_pos; lia). nia.
    - destruct (Zdigits2_bounds m ltac:(lia)) as [_ Hhi].
      rewrite <- pow2_split by lia.
      eapply Z.lt_le_trans; [exact Hhi|].
      apply Z.pow_le_mono_r; lia. }
  assert (B2 : 0 < m -> -1074 < Zdigits2 m + e - 53 -> 2 ^ 52 <= shr_m mrs1).
  { intros Hm0 Hbig. rewrite Hm1.
    apply Z.div_le_lower_bound; [lia|].
    destruct (Zdigits2_bounds m Hm0) as [Hlo _].
    rewrite <- pow2_split by lia.
    eapply Z.le_trans; [| exact Hlo].
    apply Z.pow_le_mono_r; lia. }
  assert (B3 : f = -1074 \/ 2 ^ 52 <= shr_m mrs1).
  { destruct (Z_le_gt_dec (Zdigits2 m + e - 53) (-1074)); [left; lia | right].
    destruct (Z.eq_dec m 0) as [-> | Hm0]; [cbn in *; lia|].
    apply B2; lia. }
  (* the truncated mantissa still reaches [k] *)
  assert (B4 : k * 2 ^ 2200 <= scaled (shr_m mrs1) f).
  { destruct (Z_le_gt_dec f 0) as [Hf0 | Hf1].
    - assert (Hke : k * 2 ^ (- e) <= m).
      { unfold scaled in Hv.
        replace (2 ^ 2200) with (2 ^ ((- e) + (e + 2200))) in Hv by (f_equal; lia).
        rewrite (pow2_split (- e) (e + 2200)), Z.mul_assoc in Hv by lia.
        apply Z.mul_le_mono_pos_r in Hv; [exact Hv | apply pow2_pos; lia]. }
      assert (Hkm : k * 2 ^ (- f) <= shr_m mrs1).
      { rewrite Hm1. apply Z.div_le_lower_bound; [lia|].
        replace (- e) with (n + (- f)) in Hke by (unfold n; lia).
        rewrite (pow2_split n (- f)) in Hke by lia. lia. }
      unfold scaled.
      replace (2 ^ 2200) with (2 ^ ((- f) + (f + 2200))) by (f_equal; lia).
      rewrite (pow2_split (- f) (f + 2200)), Z.mul_assoc by lia.
      apply Z.mul_le_mono_nonneg_r; [apply Z.lt_le_incl, pow2_pos; lia | exact Hkm].
    - assert (Hm0 : 0 < m).
      { destruct (Z.eq_dec m 0) as [-> | Hm0]; [| lia].
        cbn [Zdigits2] in Hf. lia. }
      specialize (B2 Hm0 ltac:(lia)).
      unfold scaled.
      assert (2 ^ 2200 * 2 <= 2 ^ (f + 2200)).
      { replace (f + 2200) with (2200 + 1 + (f - 1)) by lia.
        rewrite (pow2_split (2200 + 1) (f - 1)), (pow2_split 2200 1) by lia.
        change (2 ^ 1) with 2.
        assert (0 < 2 ^ (f - 1)) by (apply pow2_pos; lia). nia. }
      change (2 ^ 53) with (2 ^ 52 * 2) in Hk.
      assert (0 < 2 ^ 52) by (apply pow2_pos; lia).
      nia. }
  set (m2 := round_nearest_even (shr_m mrs1) (loc_of_shr_record mrs1)).
  assert (C : m2 = shr_m mrs1 \/ m2 = shr_m mrs1 + 1) by apply round_nearest_even_cases.
  assert (B5 : k * 2 ^ 2200 <= scaled m2 f).
  { unfold scaled in *.
    assert (0 < 2 ^ (f + 2200)) by (apply pow2_pos; unfold f, fexp, emin, F64.prec, F64.emax; lia).
    destruct C as [-> | ->]; nia. }
  pose proof (round_last_stage_ge m2 f k) as L.
  assert (H53 : 2 ^ 53 = 9007199254740992) by reflexivity.
  assert (H52 : 2 ^ 52 = 4503599627370496) by reflexivity.
  specialize (L ltac:(lia) ltac:(lia) ltac:(lia) B5).
  destruct (shr_fexp F64.prec F64.emax m2 f loc_Exact) as [mrs2 e2].
  exact L.
Qed.

Lemma binary_round_ge (m : positive) (e k : Z) :
  -1074 <= e -> 0 <= k <= 2 ^ 53 -> k * 2 ^ 2200 <= scaled (Z.pos m) e ->
  ge_int (binary_round F64.prec F64.emax false m e) k.
Proof.
  intros He Hk Hv. unfold binary_round.
  set (f := fexp F64.prec F64.emax (Z.pos (digits2_pos m) + e)).
  pose proof (fexp_ge (Z.pos (digits2_pos m) + e)) as [Hf _]. fold f in Hf.
  unfold shl_align.
  destruct (f - e) as [| j | j] eqn:Hj.
  - apply binary_round_aux_ge; try lia; try assumption.
    cbn [Zdigits2]. fold f. lia.
  - apply binary_round_aux_ge; try lia; try assumption.
    cbn [Zdigits2]. fold f. lia.
  - apply binary_round_aux_ge; try lia.
    + cbn [Zdigits2]. rewrite digits2_pos_iter_xO.
      replace (Z.pos (digits2_pos m) + Z.pos j + f) with (Z.pos (digits2_pos m) + e) by lia.
      fold f. lia.
    + rewrite iter_xO_spec, scaled_shift by lia.
      replace (f + Z.pos j) with e by lia. exact Hv.
Qed.

Lemma SFadd_nonneg (x y : spec_float) :
  nonneg x -> nonneg y -> nonneg (SFadd F64.prec F64.emax x y).
Proof.
  intros Hx Hy.
  destruct x as [sx | sx | | sx mx ex]; destruct y as [sy | sy | | sy my ey];
    cbn [nonneg] in Hx, Hy; subst; cbn [SFadd nonneg]; try tauto;
    try (destruct sx; cbn; trivial); try (destruct sy; cbn; trivial).
  apply binary_normalize_decoded. cbn [cond_Zopp]. lia.
Qed.

(** The sum of two floats is at least the sum of two integers below
    them. *)
Lemma SFadd_ge (x y : spec_float) (a b : Z) :
  decoded x -> decoded y -> nonneg x -> nonneg y ->
  ge_int x a -> ge_int y b -> 0 <= a -> 0 <= b -> a + b <= 2 ^ 53 ->
  ge_int (SFadd F64.prec F64.emax x y) (a + b).
Proof.
  intros Dx Dy Nx Ny Ga Gb Ha Hb Hab.
  assert (HU : 0 < 2 ^ 2200) by (apply pow2_pos; lia).
  destruct x as [sx | sx | | sx mx ex]; destruct y as [sy | sy | | sy my ey];
    cbn [nonneg] in Nx, Ny; subst; cbn [ge_int] in Ga, Gb; try contradiction;
    cbn [SFadd].
  - destruct sx, sy; cbn [ge_int]; lia.
  - exact I.
  - cbn [ge_int]. replace (a + b) with b by lia. exact Gb.
  - exact I.
  - exact I.
  - exact I.
  - cbn [ge_int]. replace (a + b) with a by lia. exact Ga.
  - exact I.
  - destruct (decoded_digits _ _ _ Dx) as (_ & Ex & _).
    destruct (decoded_digits _ _ _ Dy) as (_ & Ey & _).
    set (ez := Z.min ex ey).
    cbn [cond_Zopp].
    assert (Hx : scaled (Z.pos (fst (shl_align mx ex ez))) ez = scaled (Z.pos mx) ex).
    { rewrite shl_align_fst, scaled_shift by (unfold ez; lia). f_equal. lia. }
    assert (Hy : scaled (Z.pos (fst (shl_align my ey ez))) ez = scaled (Z.pos my) ey).
    { rewrite shl_align_fst, scaled_shift by (unfold ez; lia). f_equal. lia. }
    change (Z.pos (fst (shl_align mx ex ez)) + Z.pos (fst (shl_align my ey ez)))
      with (Z.pos (fst (shl_align mx ex ez) + fst (shl_align my ey ez))).
    cbn [binary_normalize].
    apply binary_round_ge; [unfold ez; lia | lia |].
    rewrite Pos2Z.inj_add. unfold scaled in *. nia.
Qed.

(** Comparison of floats agrees with the comparison of their values. *)
Lemma SFcompare_scaled (m1 m2 : positive) (e1 e2 : Z) :
  decoded (S754_finite false m1 e1) -> decoded (S754_finite false m2 e2) ->
  SFcompare (S754_finite false m1 e1) (S754_finite false m2 e2)
  = Some (scaled (Z.pos m1) e1 ?= scaled (Z.pos m2) e2).
Proof.
  intros D1 D2. cbn [SFcompare]. f_equal.
  destruct (decoded_digits _ _ _ D1) as (L1 & E1 & C1).
  destruct (decoded_digits _ _ _ D2) as (L2 & E2 & C2).
  pose proof (digits2_pos_bounds m1) as B1.
  pose proof (digits2_pos_bounds m2) as B2.
  assert (U1 : Z.pos m1 < 2 ^ 53).
  { eapply Z.lt_le_trans; [apply B1|]. apply Z.pow_le_mono_r; lia. }
  assert (U2 : Z.pos m2 < 2 ^ 53).
  { eapply Z.lt_le_trans; [apply B2|]. apply Z.pow_le_mono_r; lia. }
  assert (Hlt : forall (ma mb : positive) (ea eb : Z),
             -1074 <= ea -> ea < eb -> Z.pos ma < 2 ^ 53 -> 2 ^ 52 <= Z.pos mb ->
             scaled (Z.pos ma) ea < scaled (Z.pos mb) eb).
  { intros ma mb ea eb Hea Hlt Ha Hb. unfold scaled.
    replace (eb + 2200) with ((eb - ea - 1) + (1 + (ea + 2200))) by lia.
    rewrite (pow2_split (eb - ea - 1)), (pow2_split 1) by lia.
    change (2 ^ 1) with 2. change (2 ^ 53) with (2 ^ 52 * 2) in Ha.
    assert (0 < 2 ^ (ea + 2200)) by (apply pow2_pos; lia).
    assert (0 < 2 ^ (eb - ea - 1)) by (apply pow2_pos; lia).
    assert (0 < 2 ^ 52) by (apply pow2_pos; lia).
    generalize dependent (2 ^ (ea + 2200)). generalize dependent (2 ^ (eb - ea - 1)).
    generalize dependent (2 ^ 52). intros T Ha Hb HT P HP U HU.
    apply Z.lt_le_trans with (T * 2 * U); [nia |].
    apply Z.le_trans with (Z.pos mb * (1 * (2 * U))); [nia |].
    apply Z.mul_le_mono_nonneg_l; [lia |]. apply Z.mul_le_mono_nonneg_r; lia. }
  destruct (Z.compare_spec e1 e2) as [He | He | He].
  - subst e2. unfold scaled.
    change (Pos.compare_cont Eq m1 m2) with (Z.pos m1 ?= Z.pos m2).
    assert (0 < 2 ^ (e1 + 2200)) by (apply pow2_pos; lia).
    destruct (Z.compare_spec (Z.pos m1) (Z.pos m2)) as [Hm | Hm | Hm]; symmetry.
    + rewrite Hm. apply Z.compare_refl.
    + apply Z.compare_lt_iff. nia.
    + apply Z.compare_gt_iff. nia.
  - symmetry. apply Z.compare_lt_iff. apply Hlt; try lia.
    destruct C2 as [C2 | C2]; [| lia]. rewrite C2 in B2. apply B2.
  - symmetry. apply Z.compare_gt_iff. apply Hlt; try lia.
    destruct C1 as [C1 | C1]; [| lia]. rewrite C1 in B1. apply B1.
Qed.

Lemma scaled_sf_int (h : Z) :
  0 < h < 2 ^ 53 -> scaled (Z.pos (int_mant h)) (digits h - 53) = h * 2 ^ 2200.
Proof.
  intros Hh. destruct (int_mant_spec h Hh) as [HM _].
  pose proof (digits_range h Hh).
  rewrite HM, scaled_shift by lia. unfold scaled. do 2 f_equal. lia.
Qed.

Lemma decoded_sf_int (h : Z) : 0 <= h < 2 ^ 53 -> decoded (sf_int h).
Proof.
  intros Hh. rewrite <- SF_of_int by assumption. apply SF_decoded.
Qed.

(** A cursor that has reached the integer [c] is not below a bound
    [h <= c]. *)
Lemma SFltb_ge_int (x : spec_float) (c h : Z) :
  decoded x -> nonneg x -> ge_int x c -> 0 <= h <= c -> h < 2 ^ 53 ->
  SFltb x (sf_int h) = false.
Proof.
  intros Dx Nx Gx Hh Hb.
  assert (HU : 0 < 2 ^ 2200) by (apply pow2_pos; lia).
  pose proof (decoded_sf_int h ltac:(lia)) as Dh.
  unfold sf_int in *. destruct (Z.eqb_spec h 0) as [-> | Hh0].
  - apply SFltb_nonneg_nonpos; [exact Nx | exact I].
  - unfold SFltb.
    destruct x as [sx | sx | | sx mx ex]; cbn [nonneg ge_int] in Nx, Gx; subst;
      try contradiction.
    + lia.
    + reflexivity.
    + rewrite SFcompare_scaled by assumption.
      rewrite scaled_sf_int by lia.
      destruct (Z.compare_spec (scaled (Z.pos mx) ex) (h * 2 ^ 2200)); try reflexivity.
      nia.
Qed.

Lemma digits_rate (rate : Z) : 1 <= rate <= 10 ^ 9 -> 1 <= digits rate <= 30.
Proof.
  intros H. unfold digits. pose proof (Z.log2_nonneg rate).
  assert (Z.log2 rate < 30); [| lia].
  apply Z.log2_lt_pow2; [lia|]. change (2 ^ 30) with 1073741824.
  change (10 ^ 9) with 1000000000 in H. lia.
Qed.

(** The quotient of [10^9] by a rate of at most [10^9], before rounding,
    is at least one. *)
Lemma step_core_ge (rate : Z) :
  1 <= rate <= 10 ^ 9 ->
  let '(q, e', l) := SFdiv_core_binary F64.prec F64.emax 8388608000000000 (-23)
                       (Z.pos (int_mant rate)) (digits rate - 53) in
  -2200 <= e' /\ 1 * 2 ^ 2200 <= scaled q e'.
Proof.
  intros Hr.
  assert (Hr53 : 0 < rate < 2 ^ 53).
  { change (10 ^ 9) with 1000000000 in Hr. change (2 ^ 53) with 9007199254740992. lia. }
  pose proof (digits_rate rate Hr) as Hd.
  destruct (int_mant_spec rate Hr53) as [HM HB].
  unfold SFdiv_core_binary. cbn [Zdigits2].
  rewrite (int_mant_digits rate Hr53).
  change (Z.pos (digits2_pos 8388608000000000)) with 53.
  set (dr := digits rate) in *.
  replace (Z.min (fexp F64.prec F64.emax (53 + -23 - (53 + (dr - 53)))) (-23 - (dr - 53)))
    with (- dr - 23) by (rewrite fexp_eq; lia).
  replace (-23 - (dr - 53) - (- dr - 23)) with 53 by lia.
  cbv iota.
  rewrite Z.shiftl_mul_pow2 by lia.
  pose proof (Z_div_mod (8388608000000000 * 2 ^ 53) (Z.pos (int_mant rate)) ltac:(lia)) as Hdm.
  destruct (Z.div_eucl (8388608000000000 * 2 ^ 53) (Z.pos (int_mant rate))) as [q r].
  destruct Hdm as [Hq Hrem].
  split; [lia|].
  unfold scaled.
  replace (2 ^ 2200) with (2 ^ ((dr + 23) + (- dr - 23 + 2200))) by (f_equal; lia).
  rewrite (pow2_split (dr + 23) (- dr - 23 + 2200)) by lia.
  assert (HU : 0 < 2 ^ (- dr - 23 + 2200)) by (apply pow2_pos; lia).
  rewrite Z.mul_1_l. apply Z.mul_le_mono_nonneg_r; [lia|].
  (* q >= 2^(dr+23) *)
  assert (HP : 0 < 2 ^ (dr + 23)) by (apply pow2_pos; lia).
  assert (HQ : 0 < 2 ^ (53 - dr)) by (apply pow2_pos; lia).
  assert (E : Z.pos (int_mant rate) * 2 ^ (dr + 23) = rate * 2 ^ 76).
  { rewrite HM, <- Z.mul_assoc, <- pow2_split by lia. do 2 f_equal. lia. }
  assert (L : rate * 2 ^ 76 <= 8388608000000000 * 2 ^ 53).
  { change (8388608000000000 * 2 ^ 53) with (10 ^ 9 * 2 ^ 76).
    apply Z.mul_le_mono_nonneg_r; [apply Z.pow_nonneg|]; lia. }
  set (M := Z.pos (int_mant rate)) in *. set (P := 2 ^ (dr + 23)) in *.
  set (N := 8388608000000000 * 2 ^ 53) in *.
  assert (HM0 : 0 < M) by (unfold M; lia).
  destruct (Z_lt_le_dec q P) as [Hlt | Hge]; [| exact Hge].
  exfalso. assert (M * (q + 1) <= M * P) by (apply Z.mul_le_mono_nonneg_l; lia). lia.
Qed.

(** At a rate from [1] to [10^9] the step of the loop is a float that is
    at least one nanosecond. *)
Lemma step_ge_one (rate : Z) :
  1 <= rate <= 10 ^ 9 ->
  let step := F64.SF (F64.div (F64.of_int Time.Second) (F64.of_int rate)) in
  decoded step /\ nonneg step /\ ge_int step 1.
Proof.
  intros Hr step. subst step.
  assert (Hr53 : 0 < rate < 2 ^ 53).
  { change (10 ^ 9) with 1000000000 in Hr. change (2 ^ 53) with 9007199254740992. lia. }
  split; [apply SF_decoded|].
  rewrite SF_div, SF_Second, SF_of_int by lia.
  unfold sf_int. destruct (Z.eqb_spec rate 0) as [? | _]; [lia|].
  pose proof (SF_decoded (F64.of_int Time.Second)) as D9. rewrite SF_Second in D9.
  pose proof (decoded_sf_int rate ltac:(lia)) as Dr. unfold sf_int in Dr.
  destruct (Z.eqb_spec rate 0) as [? | _]; [lia|].
  destruct (SFdiv_finite false false _ _ _ _ D9 Dr) as (_ & Hs & _).
  split.
  { change (xorb false false) with false in Hs.
    destruct Hs; cbn [nonneg]; trivial. }
  clear Hs. cbn [SFdiv xorb].
  pose proof (step_core_ge rate Hr) as Hge.
  pose proof (SFdiv_core_spec 8388608000000000 (int_mant rate) (-23) (digits rate - 53)) as Hsp.
  change (Z.pos (digits2_pos 8388608000000000)) with 53 in Hsp.
  specialize (Hsp ltac:(lia)).
  destruct (SFdiv_core_binary F64.prec F64.emax 8388608000000000 (-23)
              (Z.pos (int_mant rate)) (digits rate - 53)) as [[q e'] l].
  destruct Hsp as (Hq & Hpre & _). destruct Hge as [He Hv].
  apply binary_round_aux_ge; try assumption.
  change (2 ^ 53) with 9007199254740992. lia.
Qed.

(** Once the cursor has reached the integer [c], at most [hi - c] more
    turns are made: every turn adds at least one nanosecond. *)
Lemma Sample_loop_terminates (s : Signal) (step hi : float64) (h : Z) :
  0 <= h < 2 ^ 53 -> F64.SF hi = sf_int h ->
  nonneg (F64.SF step) -> ge_int (F64.SF step) 1 ->
  forall (n : nat) (c : Z) (i : float64) (acc : list float64),
    0 <= c -> h - c <= Z.of_nat n ->
    nonneg (F64.SF i) -> ge_int (F64.SF i) c ->
    exists frames, Sample_loop (S n) s step hi i acc = Some frames.
Proof.
  intros Hh Hhi Ns Gs.
  induction n as [| n IH]; intros c i acc Hc Hn Ni Gi.
  - cbn [Sample_loop]. unfold F64.ltb. rewrite Hhi.
    assert (Hf : SFltb (F64.SF i) (sf_int h) = false).
    { apply (SFltb_ge_int (F64.SF i) c h); try assumption; try lia.
      apply SF_decoded. }
    rewrite Hf. eexists; reflexivity.
  - cbn [Sample_loop]. fold Sample_loop.
    destruct (F64.ltb i hi) eqn:Hlt; [| eexists; reflexivity].
    destruct (Z_le_gt_dec h c) as [Hle | Hgt].
    { unfold F64.ltb in Hlt. rewrite Hhi in Hlt.
      assert (Hf : SFltb (F64.SF i) (sf_int h) = false).
      { apply (SFltb_ge_int (F64.SF i) c h); try assumption; try lia.
        apply SF_decoded. }
      congruence. }
    apply (IH (c + 1)); try lia.
    + rewrite SF_add. apply SFadd_nonneg; assumption.
    + rewrite SF_add. apply SFadd_ge; try assumption; try lia; apply SF_decoded.
Qed.

(** C10, amended: for every signal, every rate from [1] to [10^9], and
    all [from >= 0] and [to >= 0] with [from + to < 2^53] nanoseconds,
    [Sample] terminates; when moreover [to > 0], the sequence it returns
    is not empty and its first frame is the signal evaluated at [from]. *)
Theorem Sample_terminates (s : Signal) (rate : Z) (from to : Time.Duration) :
  1 <= rate <= 10 ^ 9 -> 0 <= from -> 0 <= to -> from + to < 2 ^ 53 ->
  exists frames : list float64,
    returns s rate from to frames /\
    (0 < to -> exists rest, frames = s from :: rest).
Proof.
  intros Hr Hfrom Hto Hb.
  destruct (step_ge_one rate Hr) as (_ & Ns & Gs).
  assert (Hw : Int64.add from to = from + to).
  { unfold Int64.add. apply wrap64_in_range.
    unfold Int64.in_range, Int64.min_signed, Int64.max_signed.
    change (2 ^ 53) with 9007199254740992 in Hb.
    change (2 ^ 63) with 9223372036854775808. lia. }
  destruct (Sample_loop_terminates s
              (F64.div (F64.of_int Time.Second) (F64.of_int rate))
              (F64.of_int (from + to)) (from + to) ltac:(lia)
              ltac:(apply SF_of_int; lia) Ns Gs
              (Z.to_nat to) from (F64.of_int from) [] Hfrom ltac:(lia))
    as [frames Hf].
  - apply of_int_nonneg. exact Hfrom.
  - rewrite SF_of_int by lia. unfold sf_int.
    destruct (Z.eqb_spec from 0) as [-> | Hne]; cbn [ge_int]; [lia|].
    rewrite scaled_sf_int by lia. lia.
  - assert (R : returns s rate from to frames).
    { exists (S (Z.to_nat to)). unfold Sample. rewrite Hw. exact Hf. }
    exists frames. split; [exact R|].
    intros Hpos. apply (Sample_first_frame s rate from to frames); assumption.
Qed.

Lemma Sample_terminates_witness :
  exists frames : list float64,
    returns (Constant F64.two) 44100 7 100000 frames /\
    (0 < 100000 -> exists rest, frames = Constant F64.two 7 :: rest).
Proof.
  apply (Sample_terminates (Constant F64.two) 44100 7 100000).
  - split; discriminate.
  - discriminate.
  - discriminate.
  - reflexivity.
Defined.

(** Above [10^9] frames per second the step is less than a nanosecond and
    the cursor can stay where it is below [2^53] already: at [2 * 10^9]
    frames per second, from offset [2^52], the sum [2^52 + 1/2] rounds
    back to [2^52]. *)
Lemma Sample_termination_fast_rate :
  ~ (exists frames : list float64,
       returns (Constant F64.zero) 2000000000 (2 ^ 52) 2 frames).
Proof.
  intros (frames & fuel & H). unfold Sample in H.
  rewrite Sample_loop_stuck in H; [discriminate H | |]; vm_compute; reflexivity.
Qed.
